(** * Abbaas Painter backend: a shallow embedding and its properties

    The backend is a FastAPI service with one route, [POST /api/v1/inpaint].
    It decodes two data URIs, runs the LaMa inpainting network between a
    preprocessing and a compositing stage, and encodes the result.

    Part I is the embedding, following the Python packages:
    - [Py]              exceptions and the error monad;
    - [Float32]         IEEE binary32 arithmetic (numpy's [float32]);
    - [Float64]         IEEE binary64 arithmetic (the [double] of Pillow's C code);
    - [Numpy]           nested-list arrays, slicing, broadcasting, [np.pad];
    - [PIL], [PyStr]    images and their scaling, and the string functions of the
                        codec;
    - [image_utils]     [app/utils/image_utils.py];
    - [Torch], [Scipy]  tensors, the network interface, binary dilation;
    - [inpaint_service] [app/services/inpaint_service.py];
    - [routes]          [app/api/routes.py];
    - [Fixtures]        concrete libraries and inputs for the examples.
    Part II holds the lemmas and the properties of the specification.
    Part III holds further properties of the code, read off the source.

    Library code (numpy, scipy, torch, PIL, base64, huggingface_hub) is either
    modelled after its documented behaviour, where the behaviour is a simple
    array function, or taken as a section variable, where it is opaque (the
    network, the PNG codec, the hub download).  Pillow's nearest-neighbour
    scaling follows the loop of its C code, which accumulates the source
    position in doubles. *)

From Stdlib Require Import ZArith NArith Ascii String Floats.SpecFloat.
From stdpp Require Import base option list strings.

Open Scope Z_scope.

(* ===================================================================== *)
(** * Python: exceptions and the error monad                             *)
(* ===================================================================== *)

Module Py.

(** The exception classes that the backend can meet.  Two subclass relations
    matter for the route's handlers: [binascii.Error] is a subclass of
    [ValueError], and PIL's [UnidentifiedImageError] is a subclass of
    [OSError]. *)
Inductive exn : Type :=
| ValueError (msg : string)
| binascii_Error (msg : string)
| OSError (msg : string)
| UnidentifiedImageError (msg : string)
| RuntimeError (msg : string)
| ZeroDivisionError (msg : string)
| OtherException (cls msg : string).

(** [str(e)] *)
Definition str (e : exn) : string :=
  match e with
  | ValueError m | binascii_Error m | OSError m | UnidentifiedImageError m
  | RuntimeError m | ZeroDivisionError m | OtherException _ m => m
  end.

(** [isinstance(e, ValueError)], what [except ValueError] tests. *)
Definition isinstance_ValueError (e : exn) : bool :=
  match e with
  | ValueError _ | binascii_Error _ => true
  | _ => false
  end.

(** A computation that returns or raises. *)
Inductive result (A : Type) : Type :=
| Ok (a : A)
| Raise (e : exn).
Arguments Ok {A} a.
Arguments Raise {A} e.

#[export] Instance result_ret : MRet result := λ A a, Ok a.
#[export] Instance result_bind : MBind result := λ A B k m,
  match m with
  | Ok a => k a
  | Raise e => Raise e
  end.

(** A list comprehension whose body may raise: the first exception wins. *)
Fixpoint traverse {A B} (f : A → result B) (l : list A) : result (list B) :=
  match l with
  | [] => Ok []
  | x :: l' => y ← f x; ys ← traverse f l'; Ok (y :: ys)
  end.

Definition is_Ok {A} (r : result A) : Prop := ∃ a, r = Ok a.

End Py.
Export Py.

(* ===================================================================== *)
(** * IEEE binary32                                                      *)
(* ===================================================================== *)

Module Float32.

(** numpy's and torch's [float32]: 24 bits of precision, [emax = 128], on the
    standard library's specification of IEEE 754 arithmetic (round to nearest,
    ties to even). *)
Definition prec : Z := 24.
Definition emax : Z := 128.
Definition float32 : Type := spec_float.

Definition of_Z (z : Z) : float32 := binary_normalize prec emax z 0 false.
Definition add : float32 → float32 → float32 := SFadd prec emax.
Definition sub : float32 → float32 → float32 := SFsub prec emax.
Definition mul : float32 → float32 → float32 := SFmul prec emax.
Definition div : float32 → float32 → float32 := SFdiv prec emax.

Definition zero : float32 := of_Z 0.
Definition one : float32 := of_Z 1.

(** The integer part of a finite value (rounding toward zero); [None] for an
    infinity or a NaN. *)
Definition trunc (x : float32) : option Z :=
  match x with
  | S754_zero _ => Some 0
  | S754_finite s m e =>
      Some (cond_Zopp s (if 0 <=? e then Z.pos m * 2 ^ e else Z.pos m / 2 ^ (- e)))
  | S754_infinity _ | S754_nan => None
  end.

(** The nearest integer, ties to even ([round], [np.rint]); [None] for an
    infinity or a NaN. *)
Definition round_half_even (x : float32) : option Z :=
  match x with
  | S754_zero _ => Some 0
  | S754_finite s m e =>
      if 0 <=? e then Some (cond_Zopp s (Z.pos m * 2 ^ e))
      else
        let d := 2 ^ (- e) in
        let q := Z.pos m / d in
        let r := Z.pos m mod d in
        let up := if 2 * r <? d then false
                  else if d <? 2 * r then true
                  else Z.odd q in
        Some (cond_Zopp s (if up then q + 1 else q))
  | S754_infinity _ | S754_nan => None
  end.

(** [x.astype(np.uint8)] on a [float32]: the C conversion, which drops the
    fraction.  Outside the range of the target type, and on NaN, C leaves the
    result undefined; the usual outcome (wrap-around, and 0 for NaN and the
    infinities) is taken here. *)
Definition to_uint8 (x : float32) : Z :=
  match trunc x with
  | Some z => z mod 256
  | None => 0
  end.

(** [np.clip(x, lo, hi)]: NaN is propagated. *)
Definition clip (x lo hi : float32) : float32 :=
  match x with
  | S754_nan => S754_nan
  | _ => if SFltb x lo then lo else if SFltb hi x then hi else x
  end.

#[export] Instance float32_eq_dec : EqDecision float32.
Proof. solve_decision. Defined.

End Float32.

Abbreviation float32 := Float32.float32.

(* ===================================================================== *)
(** * IEEE binary64                                                      *)
(* ===================================================================== *)

(** The [double] of C, in which Pillow computes the source coordinates of a
    scaled image. *)
Module Float64.

Definition prec : Z := 53.
Definition emax : Z := 1024.

Definition float64 : Type := spec_float.

Definition of_Z (z : Z) : float64 := binary_normalize prec emax z 0 false.
Definition add : float64 → float64 → float64 := SFadd prec emax.
Definition mul : float64 → float64 → float64 := SFmul prec emax.
Definition div : float64 → float64 → float64 := SFdiv prec emax.

Definition zero : float64 := of_Z 0.

(** The constant [0.5]. *)
Definition half : float64 := S754_finite false 4503599627370496 (-53).

(** The integer part of a finite value (rounding toward zero); [None] for an
    infinity or a NaN. *)
Definition trunc (x : float64) : option Z :=
  match x with
  | S754_zero _ => Some 0
  | S754_finite s m e =>
      Some (cond_Zopp s (if 0 <=? e then Z.pos m * 2 ^ e else Z.pos m / 2 ^ (- e)))
  | S754_infinity _ | S754_nan => None
  end.

(** The C conversion [(int) x], which drops the fraction.  Outside the range
    of [int], and on NaN and the infinities, C leaves the result undefined;
    the usual outcome, the least [int], is taken here. *)
Definition to_int (x : float64) : Z :=
  match trunc x with
  | Some z => if decide (- 2 ^ 31 ≤ z < 2 ^ 31) then z else - 2 ^ 31
  | None => - 2 ^ 31
  end.

End Float64.

Abbreviation float64 := Float64.float64.

(* ===================================================================== *)
(** * numpy: arrays as nested lists                                      *)
(* ===================================================================== *)

Module Numpy.

Local Open Scope nat_scope.

(** A two-dimensional array is the list of its rows; a third axis, when there
    is one, is the element type (the channel vector of a pixel).  numpy's
    arrays are rectangular: [rectangular w a] says that every row has [w]
    elements, and is assumed of inputs where a statement needs it. *)
Definition shape2 {A} (a : list (list A)) : nat * nat :=
  (length a, match a with [] => 0 | row :: _ => length row end).

Definition rectangular {A} (w : nat) (a : list (list A)) : Prop :=
  Forall (λ row, length row = w) a.

(** [a] has [h] rows of [w] elements. *)
Definition has_shape2 {A} (h w : nat) (a : list (list A)) : Prop :=
  length a = h ∧ rectangular w a.

(** [a] has [h] rows of [w] pixels of [c] channels. *)
Definition has_shape3 {A} (h w c : nat) (a : list (list (list A))) : Prop :=
  has_shape2 h w a ∧ Forall (Forall (λ px, length px = c)) a.

(** Every element of a three-dimensional array satisfies [P]. *)
Definition Forall3 {A} (P : A → Prop) (a : list (list (list A))) : Prop :=
  Forall (Forall (Forall P)) a.

(** The values of the element type [uint8]. *)
Definition uint8 (v : Z) : Prop := (0 ≤ v < 256)%Z.

(** [a[i, j]] *)
Definition at2 {A} (a : list (list A)) (i j : nat) : option A :=
  row ← a !! i; row !! j.

(** [a[i, j, c]] *)
Definition at3 {A} (a : list (list (list A))) (i j c : nat) : option A :=
  px ← at2 a i j; px !! c.

(** [a[:h, :w]] (and [a[:h, :w, :]] on an image) *)
Definition crop {A} (h w : nat) (a : list (list A)) : list (list A) :=
  take w <$> take h a.

Definition map2 {A B} (f : A → B) (a : list (list A)) : list (list B) :=
  fmap (M:=list) f <$> a.

Definition map3 {A B} (f : A → B) (a : list (list (list A))) :
    list (list (list B)) :=
  map2 (fmap (M:=list) f) a.

(** One axis of a broadcasting binary operation: equal lengths are combined
    position by position, an axis of length one is stretched to the other
    operand's length, anything else raises [err]. *)
Definition broadcast {A B C} (err : exn) (f : A → B → result C)
    (xs : list A) (ys : list B) : result (list C) :=
  if decide (length xs = length ys) then traverse (λ p, f p.1 p.2) (zip xs ys)
  else match xs, ys with
       | [x], _ => traverse (f x) ys
       | _, [y] => traverse (λ x, f x y) xs
       | _, _ => Raise err
       end.

(** The position that a broadcasting operation reads in an operand, for
    position [i] of its output: an axis of length one is read at 0. *)
Definition stretch_index {A} (l : list A) (i : nat) : nat :=
  if decide (length l = 1) then 0 else i.

(** [a[i, j, c]] of an array that a broadcasting operation stretches. *)
Definition at3_stretched {A} (a : list (list (list A))) (i j c : nat) : option A :=
  row ← a !! stretch_index a i;
  px ← row !! stretch_index row j;
  px !! stretch_index px c.

Definition broadcast_error : exn :=
  ValueError "operands could not be broadcast together".

(** [a op b] on two three-dimensional arrays. *)
Definition broadcast3 {A B C} (f : A → B → C) :
    list (list (list A)) → list (list (list B)) → result (list (list (list C))) :=
  broadcast broadcast_error (broadcast broadcast_error
    (broadcast broadcast_error (λ x y, Ok (f x y)))).

(** The position that [mode="reflect"] copies into position [p >= n] of an
    axis of length [n >= 2]: the axis is mirrored on its last and on its first
    element, without repeating them, with period [2 * (n - 1)]. *)
Definition reflect_index (n p : nat) : nat :=
  let period := 2 * (n - 1) in
  let r := p mod period in
  if r <? n then r else period - r.

(** [np.pad(l, (0, after), mode="reflect")] along one axis.  An axis of length
    one is extended with its only element; an empty axis cannot be extended. *)
Definition pad_reflect_after {A} (l : list A) (after : nat) : result (list A) :=
  match after, l with
  | 0, _ => Ok l
  | _, [] =>
      Raise (ValueError
        "can't extend empty axis using modes other than 'constant' or 'empty'")
  | _, [x] => Ok (l ++ replicate after x)
  | _, x :: _ =>
      Ok (l ++ ((λ k, nth (reflect_index (length l) (length l + k)) l x)
                  <$> seq 0 after))
  end.

(** [np.pad(img, ((0, pad_h), (0, pad_w)), mode="reflect")], and with a third
    pair [(0, 0)] for the channel axis of an image: rows first, then columns. *)
Definition pad_reflect2 {A} (img : list (list A)) (pad_h pad_w : nat) :
    result (list (list A)) :=
  rows ← pad_reflect_after img pad_h;
  traverse (λ row, pad_reflect_after row pad_w) rows.

End Numpy.
Export Numpy.

(* ===================================================================== *)
(** * PIL images and the Python string functions the codec uses          *)
(* ===================================================================== *)

Module PIL.

Local Open Scope nat_scope.

(** An image is its mode and its pixel grid: rows of pixels, each pixel the
    list of its band values (one for mode [L], three for mode [RGB]). *)
Record Image : Type := mkImage { mode : string; pixels : list (list (list Z)) }.

(** [np.array(image)] of an image with several bands. *)
Definition np_array3 (im : Image) : list (list (list Z)) := pixels im.

(** [np.array(image)] of an image with one band. *)
Definition np_array2 (im : Image) : list (list Z) :=
  map2 (λ px, default 0%Z (head px)) (pixels im).

(** [Image.fromarray] of a [(H, W, 3)] [uint8] array. *)
Definition fromarray3 (a : list (list (list Z))) : Image :=
  {| mode := "RGB"; pixels := a |}.

(** [Image.fromarray] of a [(H, W)] [uint8] array. *)
Definition fromarray2 (a : list (list Z)) : Image :=
  {| mode := "L"; pixels := map2 (λ v, [v]) a |}.

(** [COORD(v)] of Pillow's [Geometry.c]: [(v) < 0.0 ? -1 : ((int)(v))]. *)
Definition COORD (v : float64) : Z :=
  if SFltb v Float64.zero then (-1)%Z else Float64.to_int v.

(** The source coordinates that the loop of [ImagingScaleAffine] computes
    for the next [n] target positions: [xin = COORD(xo); xo += a]. *)
Fixpoint scale_coords (a xo : float64) (n : nat) : list Z :=
  match n with
  | 0 => []
  | S n => COORD xo :: scale_coords a (Float64.add xo a) n
  end.

(** The source coordinates of an axis scaled from [src] to [dst] elements.
    The step is [a = (double) src / dst], and the first coordinate is
    [0 + a * 0.5], the centre of the first target cell; the later ones are
    accumulated in doubles, one addition per position, and each is cut to an
    integer. *)
Definition nearest_coords (src dst : nat) : list Z :=
  let a := Float64.div (Float64.of_Z (Z.of_nat src)) (Float64.of_Z (Z.of_nat dst)) in
  scale_coords a (Float64.add Float64.zero (Float64.mul a Float64.half)) dst.

(** [xin >= 0 && xin < size] *)
Definition in_image (size : nat) (xin : Z) : bool :=
  (0 <=? xin)%Z && (xin <? Z.of_nat size)%Z.

(** [image.resize((w, h), Image.NEAREST)]: Pillow's [ImagingScaleAffine]
    with the steps [sw / w] and [sh / h] and with [fill = 1].  The loop first
    tabulates the source columns: [xintab[x]] is the source column of target
    column [x] where that lies in the image (the table is zeroed before), and
    [xmin, xmax) is the range from the first to the last such target column.
    A target row is zeroed, and where its source row lies in the image the
    columns of the range are copied.  The target must not be empty; neither
    is the source, for an image that was decoded. *)
Definition resize_nearest (im : Image) (size : nat * nat) : result Image :=
  let '(w, h) := size in
  let '(sh, sw) := shape2 (pixels im) in
  if decide (w = 0 ∨ h = 0 ∨ sh = 0 ∨ sw = 0) then
    Raise (ValueError "height and width must be > 0")
  else
    let xin := nearest_coords sw w in
    let xintab := (λ c, if in_image sw c then Z.to_nat c else 0) <$> xin in
    let xmin := from_option fst w (list_find (λ c, in_image sw c) xin) in
    let xmax :=
      from_option (λ p, w - p.1) 0 (list_find (λ c, in_image sw c) (reverse xin)) in
    let fill := (λ _, 0%Z) <$> default [] (at2 (pixels im) 0 0) in
    Ok {| mode := mode im;
          pixels :=
            (λ yi,
               imap (λ x xi,
                       if in_image sh yi && bool_decide (xmin ≤ x < xmax) then
                         default fill (at2 (pixels im) (Z.to_nat yi) xi)
                       else fill) xintab)
            <$> nearest_coords sh h |}.


(** The parts of PIL that stay opaque: the file codecs and mode conversion. *)
Class Codec : Type := {
  Image_open : list Byte.byte → result Image;
  Image_save : Image → string → result (list Byte.byte);
  Image_convert : Image → string → result Image;
}.

(** The [base64] module. *)
Class Base64 : Type := {
  b64encode : list Byte.byte → string;
  b64decode : string → result (list Byte.byte);
}.

End PIL.
Export PIL.

Module PyStr.

(** [s.startswith(p)], returning the rest of [s]. *)
Fixpoint strip_prefix (p s : string) : option string :=
  match p, s with
  | EmptyString, _ => Some s
  | String a p', String b s' => if Ascii.eqb a b then strip_prefix p' s' else None
  | String _ _, EmptyString => None
  end.

Definition startswith (s p : string) : bool := bool_decide (is_Some (strip_prefix p s)).

(** The longest prefix of [s] whose characters satisfy [P], and the rest. *)
Fixpoint span (P : ascii → bool) (s : string) : string * string :=
  match s with
  | EmptyString => (EmptyString, EmptyString)
  | String a s' =>
      if P a then let '(x, y) := span P s' in (String a x, y)
      else (EmptyString, s)
  end.

Definition newline : ascii := Ascii.ascii_of_nat 10.

(** [c.lower()] on an ASCII character. *)
Definition lower_ascii (c : ascii) : ascii :=
  let n := Ascii.nat_of_ascii c in
  if ((65 <=? n) && (n <=? 90))%nat then Ascii.ascii_of_nat (n + 32) else c.

(** [s.lower()] *)
Fixpoint lower (s : string) : string :=
  match s with
  | EmptyString => EmptyString
  | String a s' => String (lower_ascii a) (lower s')
  end.

(** Every character of [s] satisfies [P]. *)
Fixpoint all_chars (P : ascii → bool) (s : string) : bool :=
  match s with
  | EmptyString => true
  | String a s' => P a && all_chars P s'
  end.

(** The characters of the base64 alphabet, and the padding character. *)
Definition is_base64_char (c : ascii) : bool :=
  let n := Ascii.nat_of_ascii c in
  (((65 <=? n) && (n <=? 90)) || ((97 <=? n) && (n <=? 122)) ||
   ((48 <=? n) && (n <=? 57)) || (n =? 43) || (n =? 47) || (n =? 61))%nat.

(** The characters other than [x]: the class [[^x]]. *)
Definition not_char (x : ascii) : ascii → bool := λ c, negb (Ascii.eqb c x).

(** The rest of a string stops a run of [P]: it is empty or starts with a
    character that fails [P]. *)
Definition stops (P : ascii → bool) (tail : string) : Prop :=
  match tail with
  | EmptyString => True
  | String c _ => P c = false
  end.

(** [re.match(r"data:image/[^;]+;base64,(.+)", s)], returning [group(1)].
    The class [[^;]+] takes the longest run without a semicolon (giving
    characters back cannot help, the next pattern character is a semicolon);
    [.+] takes the longest non-empty run without a newline. *)
Definition match_data_url (s : string) : option string :=
  rest ← strip_prefix "data:image/" s;
  let '(subtype, rest) := span (λ c, negb (Ascii.eqb c ";")) rest in
  if decide (subtype = EmptyString) then None else
  rest ← strip_prefix ";base64," rest;
  let '(group1, _) := span (λ c, negb (Ascii.eqb c newline)) rest in
  if decide (group1 = EmptyString) then None else Some group1.

End PyStr.

(* ===================================================================== *)
(** * app/utils/image_utils.py                                           *)
(* ===================================================================== *)

Module image_utils.
Section image_utils.
Context `{!Codec, !Base64}.

Definition decode_base64_image (data_url : string) : result Image :=
  base64_data ←
    (if PyStr.startswith data_url "data:" then
       match PyStr.match_data_url data_url with
       | Some group1 => Ok group1
       | None => Raise (ValueError "Invalid data URL format")
       end
     else Ok data_url);
  image_bytes ← b64decode base64_data;
  Image_open image_bytes.

Definition encode_image_to_base64 (image : Image) (format : string) : result string :=
  buffer ← Image_save image format;
  let base64_data := b64encode buffer in
  let mime_type := "image/" +:+ PyStr.lower format in
  Ok ("data:" +:+ mime_type +:+ ";base64," +:+ base64_data).

(** The default of the [format] argument. *)
Definition default_format : string := "PNG".

Definition image_to_numpy (image : Image) : result (list (list (list Z))) :=
  image ← (if decide (mode image = "RGB") then Ok image else Image_convert image "RGB");
  Ok (np_array3 image).

Definition mask_to_numpy (mask : Image) : result (list (list Z)) :=
  mask ← (if decide (mode mask = "L") then Ok mask else Image_convert mask "L");
  Ok (np_array2 mask).

(** [numpy_to_image] on a [uint8] array, the only element type of this
    embedding: the branch that clips other element types is not taken. *)
Definition numpy_to_image (array : list (list (list Z))) : Image := fromarray3 array.

End image_utils.
End image_utils.

(* ===================================================================== *)
(** * torch, huggingface_hub and scipy                                   *)
(* ===================================================================== *)

Module Torch.

Local Open Scope nat_scope.

Definition tensor2 : Type := list (list float32).
Definition tensor3 : Type := list tensor2.
Definition tensor4 : Type := list tensor3.

(** The opaque parts: the hub download, the checkpoint loader, and the forward
    pass of the loaded network.  [hf_hub_download n repo_id filename] is the
    outcome of the download that [n] downloads of this process came before, so
    a download may fail and a later one succeed. *)
Class Hub : Type := {
  Model : Type;
  hf_hub_download : nat → string → string → result string;
  torch_jit_load : string → result Model;
  forward : Model → tensor4 → tensor4 → result tensor4;
}.

(** A [(1, C, H, W)] tensor. *)
Definition tensor_shape (c h w : nat) (t : tensor4) : Prop :=
  ∃ chw, t = [chw] ∧ length chw = c ∧ Forall (has_shape2 h w) chw.

(** The network answers a [(1, 3, H, W)] image and a [(1, 1, H, W)] mask,
    whose sides are positive multiples of 8, with a [(1, 3, H, W)] tensor. *)
Definition keeps_shape `{!Hub} (m : Model) : Prop :=
  ∀ image_tensor mask_tensor h w,
    tensor_shape 3 h w image_tensor → tensor_shape 1 h w mask_tensor →
    0 < h → 0 < w → (Z.of_nat h mod 8 = 0)%Z → (Z.of_nat w mod 8 = 0)%Z →
    ∃ t, forward m image_tensor mask_tensor = Ok t ∧ tensor_shape 3 h w t.

(** [t.permute(2, 0, 1)] on an [(H, W, C)] tensor: the [(C, H, W)] tensor with
    [out[c][h][w] = t[h][w][c]]. *)
Definition permute_201 (t : tensor3) : tensor3 :=
  let channels :=
    match t with
    | (px :: _) :: _ => length px
    | _ => 0
    end in
  (λ c, map2 (λ px : list float32, nth c px Float32.zero) t) <$> seq 0 channels.

(** [t.permute(1, 2, 0)] on a [(C, H, W)] tensor: the [(H, W, C)] tensor with
    [out[h][w][c] = t[c][h][w]]. *)
Definition permute_120 (t : tensor3) : tensor3 :=
  let '(h, w) := match t with plane :: _ => shape2 plane | [] => (0, 0) end in
  (λ i, (λ j, (λ plane : tensor2, default Float32.zero (at2 plane i j)) <$> t)
        <$> seq 0 w)
  <$> seq 0 h.

(** torch's message for operands that cannot be broadcast. *)
Definition size_mismatch : exn :=
  RuntimeError "The size of tensor a must match the size of tensor b".

(** [a * b] on two four-dimensional tensors. *)
Definition mul4 : tensor4 → tensor4 → result tensor4 :=
  broadcast size_mismatch (broadcast size_mismatch (broadcast size_mismatch
    (broadcast size_mismatch (λ x y, Ok (Float32.mul x y))))).

End Torch.
Export Torch.

Module Scipy.

Local Open Scope nat_scope.

(** The value of a boolean image at a position, [false] outside the image
    (the border value of [binary_dilation]). *)
Definition bit (a : list (list bool)) (i j : nat) : bool :=
  default false (at2 a i j).

(** One dilation by the default structuring element of rank two, the cross of
    the four direct neighbours and the centre. *)
Definition dilate (a : list (list bool)) : list (list bool) :=
  imap (λ i row,
    imap (λ j centre,
      centre
      || match i with 0 => false | S i' => bit a i' j end
      || bit a (S i) j
      || match j with 0 => false | S j' => bit a i j' end
      || bit a i (S j)) row) a.

(** The city-block distance of two positions is at most [d]. *)
Definition near (d i j i' j' : nat) : Prop :=
  (i - i') + (i' - i) + (j - j') + (j' - j) ≤ d.

(** [ndimage.binary_dilation(input, iterations=n)] *)
Definition binary_dilation (input : list (list bool)) (iterations : nat) :
    list (list bool) :=
  Nat.iter iterations dilate input.

End Scipy.

(* ===================================================================== *)
(** * app/services/inpaint_service.py                                    *)
(* ===================================================================== *)

Module inpaint_service.
Section inpaint_service.
Context `{!Hub}.

(** ** Process state *)

(** A [LaMaInpainter] object.  [device] is the constant [cpu] and is left out;
    [model = None] is Python's [None].  Between [__new__] and [__init__] the
    attribute [model] does not exist yet; the two run back to back in
    [LaMaInpainter()], and nothing reads the attribute in between. *)
Record LaMaInpainter : Type := mkLaMaInpainter {
  _initialized : bool;
  model : option Model;
}.

(** The mutable state of the process: the objects allocated so far, by
    address; the class attribute [LaMaInpainter._instance]; the module global
    [_inpainter]; and the number of hub downloads started. *)
Record world : Type := mkWorld {
  heap : list LaMaInpainter;
  _instance : option nat;
  _inpainter : option nat;
  downloads : nat;
}.

(** The state at import time. *)
Definition initial_world : world :=
  {| heap := []; _instance := None; _inpainter := None; downloads := 0 |}.

(** A statement: it runs in a state and returns or raises, leaving a state. *)
Definition M (A : Type) : Type := world → result A * world.

Definition ret {A} (a : A) : M A := λ w, (Ok a, w).
Definition lift {A} (r : result A) : M A := λ w, (r, w).
Definition seq_bind {A B} (m : M A) (k : A → M B) : M B := λ w,
  match m w with
  | (Ok a, w') => k a w'
  | (Raise e, w') => (Raise e, w')
  end.

Notation "'do' x <~ m ; k" := (seq_bind m (λ x, k))
  (at level 10, x name, m at level 100, k at level 200).

Definition set_object (self : nat) (o : LaMaInpainter) (w : world) : world :=
  {| heap := <[self := o]> (heap w); _instance := _instance w;
     _inpainter := _inpainter w; downloads := downloads w |}.

(** An attribute access on an address that holds no object; no run from
    [initial_world] reaches it. *)
Definition dangling : exn := OtherException "AttributeError" "no such object".

(** ** [class LaMaInpainter] *)

Definition __new__ : M nat := λ w,
  match _instance w with
  | None =>
      let self := length (heap w) in
      (Ok self,
       {| heap := heap w ++ [{| _initialized := false; model := None |}];
          _instance := Some self;
          _inpainter := _inpainter w; downloads := downloads w |})
  | Some self => (Ok self, w)
  end.

Definition __init__ (self : nat) : M unit := λ w,
  match heap w !! self with
  | None => (Raise dangling, w)
  | Some o =>
      if _initialized o then (Ok (), w)
      else (Ok (), set_object self {| _initialized := true; model := None |} w)
  end.

(** The call [LaMaInpainter()]. *)
Definition LaMaInpainter_call : M nat :=
  do self <~ __new__;
  do _ <~ __init__ self;
  ret self.

Definition repo_id : string := "fashn-ai/LaMa".
Definition filename : string := "big-lama.pt".

(** [_load_model].  The prints and [self.model.eval()] leave the state
    untouched and are left out; the counter [downloads] records the call of
    [hf_hub_download], whether it returns or raises. *)
Definition _load_model (self : nat) : M unit := λ w,
  match heap w !! self with
  | None => (Raise dangling, w)
  | Some o =>
      match model o with
      | Some _ => (Ok (), w)
      | None =>
          let w1 := {| heap := heap w; _instance := _instance w;
                       _inpainter := _inpainter w;
                       downloads := S (downloads w) |} in
          match hf_hub_download (downloads w) repo_id filename with
          | Raise e => (Raise e, w1)
          | Ok model_path =>
              match torch_jit_load model_path with
              | Raise e => (Raise e, w1)
              | Ok m =>
                  (Ok (),
                   set_object self
                     {| _initialized := _initialized o; model := Some m |} w1)
              end
          end
      end
  end.

(** [_pad_to_multiple].  The element type [A] is a mask value or the channel
    vector of a pixel, whose axis gets the pad width [(0, 0)]: both branches
    of the test on [len(img.shape)] are this one function. *)
Definition _pad_to_multiple {A} (img : list (list A)) (multiple : Z) :
    result (list (list A) * (nat * nat)) :=
  let '(h, w) := shape2 img in
  if multiple =? 0 then Raise (ZeroDivisionError "integer modulo by zero") else
  let pad_h := (multiple - Z.of_nat h mod multiple) mod multiple in
  let pad_w := (multiple - Z.of_nat w mod multiple) mod multiple in
  if (pad_h <? 0) || (pad_w <? 0) then
    Raise (ValueError "index can't contain negative values")
  else
    padded ← pad_reflect2 img (Z.to_nat pad_h) (Z.to_nat pad_w);
    Ok (padded, (h, w)).

(** [(mask > 127).astype(np.uint8) * 255] *)
Definition mask_binary (mask : list (list Z)) : list (list Z) :=
  map2 (λ v, (if 127 <? v then 1 else 0) * 255) mask.

(** [ndimage.binary_dilation(mask_binary > 0, iterations=2).astype(np.uint8) * 255] *)
Definition mask_dilated (mask_binary : list (list Z)) : list (list Z) :=
  map2 (λ b : bool, (if b then 1 else 0) * 255)
    (Scipy.binary_dilation (map2 (λ v, 0 <? v) mask_binary) 2).

(** [x.float() / 255.0] *)
Definition normalize (v : Z) : float32 := Float32.div (Float32.of_Z v) (Float32.of_Z 255).

(** Lines 84 to 93: the two tensors given to the network. *)
Definition model_input (image_padded : list (list (list Z)))
    (mask_padded : list (list Z)) : result (tensor4 * tensor4) :=
  let image_tensor := [permute_201 (map3 normalize image_padded)] in
  let mask_tensor := [[map2 normalize mask_padded]] in
  image_tensor ←
    mul4 image_tensor
      (fmap (M:=list) (map3 (λ m, Float32.sub Float32.one m)) mask_tensor);
  Ok (image_tensor, mask_tensor).

(** Lines 104 and 105: [squeeze(0)] drops the batch axis when its length is
    one; otherwise the tensor keeps four axes and [permute(1, 2, 0)] raises. *)
Definition model_output (result : tensor4) : Py.result (list (list (list Z))) :=
  match result with
  | [chw] =>
      Ok (map3 (λ x, Float32.to_uint8
                       (Float32.clip (Float32.mul x (Float32.of_Z 255))
                          (Float32.of_Z 0) (Float32.of_Z 255)))
            (permute_120 chw))
  | _ => Raise (RuntimeError "permute: number of dims don't match")
  end.

(** Lines 111 and 112: [mask_3ch]. *)
Definition mask_3ch (mask_dilated : list (list Z)) (orig_h orig_w : nat) :
    list (list (list float32)) :=
  let mask_float := map2 normalize (crop orig_h orig_w mask_dilated) in
  map2 (λ m, [m; m; m]) mask_float.

(** Line 114: [(result * mask_3ch + original_image * (1 - mask_3ch)).astype(np.uint8)] *)
Definition composite (result original_image : list (list (list Z)))
    (mask_3ch : list (list (list float32))) : Py.result (list (list (list Z))) :=
  a ← broadcast3 (λ r m, Float32.mul (Float32.of_Z r) m) result mask_3ch;
  b ← broadcast3 (λ o m, Float32.mul (Float32.of_Z o) m) original_image
        (map3 (λ m, Float32.sub Float32.one m) mask_3ch);
  s ← broadcast3 Float32.add a b;
  Ok (map3 Float32.to_uint8 s).

(** The per-element form of line 114, for one channel value [r] of the
    result, one channel value [o] of the original image and the value [md] of
    the dilated mask at their position. *)
Definition blend (r o md : Z) : float32 :=
  let weight := normalize md in
  Float32.add (Float32.mul (Float32.of_Z r) weight)
              (Float32.mul (Float32.of_Z o) (Float32.sub Float32.one weight)).

(** Lines 81 to 108 of [inpaint], with the loaded network: the cropped
    [result] of the network and the recorded [(orig_h, orig_w)]. *)
Definition inpaint_result (m : Model) (image : list (list (list Z)))
    (mask_dilated : list (list Z)) :
    result (list (list (list Z)) * (nat * nat)) :=
  '(image_padded, (orig_h, orig_w)) ← _pad_to_multiple image 8;
  '(mask_padded, _) ← _pad_to_multiple mask_dilated 8;
  '(image_tensor, mask_tensor) ← model_input image_padded mask_padded;
  result ← forward m image_tensor mask_tensor;
  result ← model_output result;
  Ok (crop orig_h orig_w result, (orig_h, orig_w)).

(** The body of [inpaint] after [_load_model], with the loaded network. *)
Definition inpaint_with (m : Model) (image : list (list (list Z)))
    (mask : list (list Z)) : result (list (list (list Z))) :=
  let original_image := image in
  let mask_binary := mask_binary mask in
  let mask_dilated := mask_dilated mask_binary in
  '(result, (orig_h, orig_w)) ← inpaint_result m image mask_dilated;
  composite result original_image (mask_3ch mask_dilated orig_h orig_w).

Definition inpaint (self : nat) (image : list (list (list Z)))
    (mask : list (list Z)) : M (list (list (list Z))) :=
  do _ <~ _load_model self;
  λ w,
    match heap w !! self ≫= model with
    | Some m => (inpaint_with m image mask, w)
    | None => (Raise dangling, w)
    end.

(** ** Module level *)

Definition get_inpainter : M nat := λ w,
  match _inpainter w with
  | None =>
      match LaMaInpainter_call w with
      | (Ok self, w') =>
          (Ok self,
           {| heap := heap w'; _instance := _instance w';
              _inpainter := Some self; downloads := downloads w' |})
      | (Raise e, w') => (Raise e, w')
      end
  | Some self => (Ok self, w)
  end.

(** ** Runs of the process *)

(** The calls that a sequential client of the module can make. *)
Inductive call : Type :=
| call_get_inpainter
| call_LaMaInpainter
| call_load_model (self : nat)
| call_inpaint (self : nat) (image : list (list (list Z))) (mask : list (list Z)).

(** The state after a call, whether it returned or raised. *)
Definition after (c : call) (w : world) : world :=
  match c with
  | call_get_inpainter => (get_inpainter w).2
  | call_LaMaInpainter => (LaMaInpainter_call w).2
  | call_load_model self => (_load_model self w).2
  | call_inpaint self image mask => (inpaint self image mask w).2
  end.

(** The states of the process: those that calls reach from the state at
    import time. *)
Inductive reachable : world → Prop :=
| reachable_initial : reachable initial_world
| reachable_after c w : reachable w → reachable (after c w).

(** At most one object was ever allocated; it is initialised, and both the
    class attribute and the module global, once set, point to it. *)
Definition single_instance (w : world) : Prop :=
  (heap w = [] ∧ _instance w = None ∧ _inpainter w = None) ∨
  (∃ o, heap w = [o] ∧ _initialized o = true ∧ _instance w = Some 0%nat ∧
        (_inpainter w = None ∨ _inpainter w = Some 0%nat)).

(** The hub serves the checkpoint and the checkpoint loads, whenever asked. *)
Definition hub_available : Prop :=
  ∀ n, ∃ model_path m,
    hf_hub_download n repo_id filename = Ok model_path ∧
    torch_jit_load model_path = Ok m.

(** The padded size of an axis of [n] elements. *)
Definition padded_size (n : nat) : nat := Z.to_nat (8 * ((Z.of_nat n + 7) / 8)).

End inpaint_service.

Notation "'do' x <~ m ; k" := (seq_bind m (λ x, k))
  (at level 10, x name, m at level 100, k at level 200).

Section inpaint_image.
Context `{!Hub, !Codec}.

Definition inpaint_image (image mask : Image) : M Image :=
  do inpainter <~ get_inpainter;
  do image_np <~ lift (image_utils.image_to_numpy image);
  do mask_np <~ lift (image_utils.mask_to_numpy mask);
  do mask_np <~
    lift (if decide (shape2 mask_np ≠ shape2 image_np) then
            mask_pil ← resize_nearest (fromarray2 mask_np)
                         ((shape2 image_np).2, (shape2 image_np).1);
            Ok (np_array2 mask_pil)
          else Ok mask_np);
  do result_np <~ inpaint inpainter image_np mask_np;
  ret (image_utils.numpy_to_image result_np).

End inpaint_image.
End inpaint_service.

(* ===================================================================== *)
(** * app/api/routes.py                                                  *)
(* ===================================================================== *)

Module routes.
Import inpaint_service.
Section routes.
Context `{!Hub, !Codec, !Base64}.

Record InpaintRequest : Type := mkInpaintRequest { image : string; mask : string }.

(** What the route answers: the response model, or an [HTTPException]. *)
Inductive response : Type :=
| InpaintResponse (result : string)
| HTTPException (status_code : Z) (detail : string).

(** The body of the [try] block. *)
Definition inpaint_try (request : InpaintRequest) : M string :=
  do image <~ lift (image_utils.decode_base64_image (image request));
  do mask <~ lift (image_utils.decode_base64_image (mask request));
  do result <~ inpaint_image image mask;
  do result_base64 <~
    lift (image_utils.encode_image_to_base64 result image_utils.default_format);
  ret result_base64.

Definition inpaint (request : InpaintRequest) : world → response * world := λ w,
  match inpaint_try request w with
  | (Ok result_base64, w') => (InpaintResponse result_base64, w')
  | (Raise e, w') =>
      if isinstance_ValueError e then
        (HTTPException 400 ("Invalid image data: " +:+ str e), w')
      else
        (HTTPException 500 ("Inpainting failed: " +:+ str e), w')
  end.

End routes.
End routes.

(* ===================================================================== *)
(** * Concrete libraries and inputs for the examples                     *)
(* ===================================================================== *)

Module Fixtures.
Import inpaint_service.

(** A base64 codec after RFC 4648, lenient toward foreign characters as
    Python's decoder is. *)
Definition alphabet : list ascii :=
  list_ascii_of_string
    "ABCDEFGHIJKLMNOPQRSTUVWXYZabcdefghijklmnopqrstuvwxyz0123456789+/".

Definition sextet_char (n : N) : ascii := nth (N.to_nat (n mod 64)%N) alphabet "A"%char.

Fixpoint index_of (c : ascii) (l : list ascii) (i : N) : option N :=
  match l with
  | [] => None
  | a :: l' => if Ascii.eqb a c then Some i else index_of c l' (i + 1)%N
  end.

Definition char_sextet (c : ascii) : option N := index_of c alphabet 0%N.

Definition to_byte (n : N) : Byte.byte := default Byte.x00 (Byte.of_N (n mod 256)%N).

Fixpoint encode (l : list Byte.byte) : string :=
  match l with
  | [] => EmptyString
  | [a] =>
      let n := (Byte.to_N a * 65536)%N in
      String (sextet_char (n / 262144)) (String (sextet_char (n / 4096)) "==")
  | [a; b] =>
      let n := (Byte.to_N a * 65536 + Byte.to_N b * 256)%N in
      String (sextet_char (n / 262144)) (String (sextet_char (n / 4096))
        (String (sextet_char (n / 64)) "="))
  | a :: b :: c :: l' =>
      let n := (Byte.to_N a * 65536 + Byte.to_N b * 256 + Byte.to_N c)%N in
      String (sextet_char (n / 262144)) (String (sextet_char (n / 4096))
        (String (sextet_char (n / 64)) (String (sextet_char n) (encode l'))))
  end.

(** The sextets before the first padding character, and the number of padding
    characters; other characters are skipped. *)
Fixpoint scan (s : string) : list N * nat :=
  match s with
  | EmptyString => ([], 0%nat)
  | String c s' =>
      if Ascii.eqb c "=" then
        ([], length (filter (λ a, a = "="%char) (list_ascii_of_string s)))
      else
        let '(ds, pad) := scan s' in
        match char_sextet c with
        | Some d => (d :: ds, pad)
        | None => (ds, pad)
        end
  end.

Fixpoint decode_sextets (ds : list N) (pad : nat) : result (list Byte.byte) :=
  match ds with
  | [] => Ok []
  | [_] => Raise (binascii_Error "Invalid base64-encoded string")
  | [a; b] =>
      if (2 <=? pad)%nat then Ok [to_byte ((a * 64 + b) / 16)]
      else Raise (binascii_Error "Incorrect padding")
  | [a; b; c] =>
      if (1 <=? pad)%nat then
        let n := ((a * 64 + b) * 64 + c)%N in
        Ok [to_byte (n / 1024); to_byte (n / 4)]
      else Raise (binascii_Error "Incorrect padding")
  | a :: b :: c :: d :: ds' =>
      let n := (((a * 64 + b) * 64 + c) * 64 + d)%N in
      rest ← decode_sextets ds' pad;
      Ok (to_byte (n / 65536) :: to_byte (n / 256) :: to_byte n :: rest)
  end.

Definition decode (s : string) : result (list Byte.byte) :=
  let '(ds, pad) := scan s in decode_sextets ds pad.

#[export] Instance reference_base64 : Base64 :=
  {| b64encode := encode; b64decode := decode |}.

(** A codec that knows one file: the image [stored_image], stored as
    [stored_file]. *)
Definition stored_image : Image :=
  {| mode := "RGB";
     pixels := [[[100; 100; 100]; [100; 100; 100]];
                [[100; 100; 100]; [9; 8; 7]]] |}.

Definition stored_file : list Byte.byte :=
  [Byte.x89; Byte.x50; Byte.x4e; Byte.x47; Byte.x0d; Byte.x0a; Byte.x1a; Byte.x0a].

#[export] Instance Image_eq_dec : EqDecision Image.
Proof. solve_decision. Defined.

#[export] Instance one_file_codec : Codec := {|
  Image_open b :=
    if decide (Byte.to_N <$> b = Byte.to_N <$> stored_file) then Ok stored_image
    else Raise (UnidentifiedImageError "cannot identify image file");
  Image_save im format :=
    if decide (im = stored_image ∧ format = "PNG") then Ok stored_file
    else Raise (OSError "cannot write image");
  Image_convert im mode' :=
    if decide (mode im = "L" ∧ mode' = "RGB") then
      Ok {| mode := "RGB";
            pixels := map2 (λ px, let v := default 0 (head px) in [v; v; v])
                        (pixels im) |}
    else if decide (mode im = "RGB" ∧ mode' = "L") then
      Ok {| mode := "L";
            pixels := map2 (λ px, [(nth 0 px 0 * 19595 + nth 1 px 0 * 38470
                                     + nth 2 px 0 * 7471 + 32768) / 65536])
                        (pixels im) |}
    else Raise (ValueError "conversion not supported");
|}.

(** A network that returns its input image. *)
#[export] Instance echo_hub : Hub := {|
  Model := unit;
  hf_hub_download _ _ _ := Ok "/cache/big-lama.pt"%string;
  torch_jit_load _ := Ok ();
  forward _ image_tensor _ := Ok image_tensor;
|}.


(** A two-by-three image and a mask that marks its lower left pixel. *)
Definition small_image : list (list (list Z)) :=
  [[[1; 2; 3]; [4; 5; 6]; [7; 8; 9]];
   [[10; 20; 30]; [40; 50; 60]; [70; 80; 90]]].

Definition small_mask : list (list Z) := [[0; 0; 0]; [200; 0; 0]].

(** The mask after [_pad_to_multiple]. *)
Definition small_mask_padded : list (list Z) :=
  Eval vm_compute in
    match _pad_to_multiple small_mask 8 with
    | Ok (padded, _) => padded
    | Raise _ => []
    end.

(** The same image as a PIL image, and a mask of another size. *)
Definition small_image_pil : Image := {| mode := "RGB"; pixels := small_image |}.

Definition narrow_mask_pil : Image := {| mode := "L"; pixels := [[[0]; [255]]] |}.

(** The state after the first call of [get_inpainter]. *)
Definition first_world : world := (get_inpainter initial_world).2.

(** The run of [inpaint] on the small image in that state. *)
Definition small_run : result (list (list (list Z))) * world :=
  Eval vm_compute in inpaint 0 small_image small_mask first_world.

Definition small_output : list (list (list Z)) :=
  match small_run.1 with
  | Ok out => out
  | Raise _ => []
  end.

(** A mask of the size of the small image with nothing marked, and a mask
    of nine rows, whose padded height is not that of the small image. *)
Definition dark_mask : list (list Z) := [[0; 100; 127]; [0; 0; 0]].

Definition tall_mask : list (list Z) := replicate 9 [0; 0; 0].

(** A hub whose first download fails. *)
Definition flaky_hub : Hub := {|
  Model := unit;
  hf_hub_download n _ _ :=
    match n with
    | O => Raise (OSError "connection reset")
    | S _ => Ok "/cache/big-lama.pt"%string
    end;
  torch_jit_load _ := Ok ();
  forward _ image_tensor _ := Ok image_tensor;
|}.

(** A request that carries the stored file as image and as mask. *)
Definition stored_request : routes.InpaintRequest :=
  {| routes.image := "data:image/png;base64,iVBORw0KGgo=";
     routes.mask := "iVBORw0KGgo=" |}.

End Fixtures.

(* ===================================================================== *)
(** * Part II: lemmas and properties                                     *)
(* ===================================================================== *)

(** ** The error monad *)

Module PyFacts.

Lemma bind_Ok {A B} (m : result A) (k : A → result B) b :
  m ≫= k = Ok b → ∃ a, m = Ok a ∧ k a = Ok b.
Proof. destruct m as [a|e]; [eauto | discriminate]. Qed.

Lemma traverse_Ok_cons {A B} (f : A → result B) x l ys :
  traverse f (x :: l) = Ok ys →
  ∃ y ys', ys = y :: ys' ∧ f x = Ok y ∧ traverse f l = Ok ys'.
Proof.
  simpl. intros H.
  apply bind_Ok in H as (y & Hy & H).
  apply bind_Ok in H as (ys' & Hys & H).
  injection H as <-. eauto.
Qed.

Lemma traverse_length {A B} (f : A → result B) l ys :
  traverse f l = Ok ys → length ys = length l.
Proof.
  revert ys. induction l as [|x l IH]; intros ys H.
  - by injection H as <-.
  - apply traverse_Ok_cons in H as (y & ys' & -> & _ & H). simpl. f_equal. eauto.
Qed.

Lemma traverse_lookup {A B} (f : A → result B) l ys i x :
  traverse f l = Ok ys → l !! i = Some x → ∃ y, ys !! i = Some y ∧ f x = Ok y.
Proof.
  revert ys i. induction l as [|x0 l IH]; intros ys i H Hi; [done|].
  apply traverse_Ok_cons in H as (y & ys' & -> & Hy & H).
  destruct i as [|i]; simpl in *.
  - injection Hi as <-. eauto.
  - eauto.
Qed.

Lemma traverse_lookup_inv {A B} (f : A → result B) l ys i y :
  traverse f l = Ok ys → ys !! i = Some y → ∃ x, l !! i = Some x ∧ f x = Ok y.
Proof.
  revert ys i. induction l as [|x0 l IH]; intros ys i H Hi.
  - injection H as <-. done.
  - apply traverse_Ok_cons in H as (y0 & ys' & -> & Hy & H).
    destruct i as [|i]; simpl in *.
    + injection Hi as <-. eauto.
    + eauto.
Qed.

Lemma traverse_is_Ok {A B} (f : A → result B) l :
  Forall (λ x, is_Ok (f x)) l → is_Ok (traverse f l).
Proof.
  induction 1 as [|x l [y Hy] _ [ys IH]]; [by eexists|].
  exists (y :: ys). simpl. by rewrite Hy, IH.
Qed.

Lemma traverse_pure {A B} (f : A → B) l :
  traverse (λ x, Ok (f x)) l = Ok (f <$> l).
Proof. induction l as [|x l IH]; [done|]. simpl. by rewrite IH. Qed.

End PyFacts.
(** ** Arrays: broadcasting, padding, lookups *)

Module NumpyFacts.
Import PyFacts.
Local Open Scope nat_scope.

Section broadcast.
Context {A B C : Type} (err : exn) (f : A → B → result C).

Lemma broadcast_lookup xs ys zs i x y :
  broadcast err f xs ys = Ok zs →
  xs !! i = Some x → ys !! i = Some y →
  ∃ z, zs !! i = Some z ∧ f x y = Ok z.
Proof.
  unfold broadcast. intros H Hx Hy. case_decide as Hlen.
  - eapply (traverse_lookup _ _ _ i (x, y)) in H; [done|].
    apply lookup_zip_with_Some. eauto.
  - destruct xs as [|x0 [|x1 xs]], ys as [|y0 [|y1 ys]];
      try done; simpl in Hlen.
    all: destruct i; try done.
    all: try (injection Hx as ->); try (injection Hy as ->).
    all: eapply traverse_lookup in H; eauto.
Qed.

Lemma broadcast_same_length xs ys :
  length xs = length ys →
  broadcast err f xs ys = traverse (λ p, f p.1 p.2) (zip xs ys).
Proof. intros H. unfold broadcast. by case_decide. Qed.

Lemma broadcast_length xs ys zs :
  length xs = length ys → broadcast err f xs ys = Ok zs → length zs = length xs.
Proof.
  intros Hlen. rewrite broadcast_same_length by done. intros H.
  apply traverse_length in H. rewrite H, length_zip_with. lia.
Qed.

Lemma broadcast_is_Ok xs ys :
  length xs = length ys →
  (∀ i x y, xs !! i = Some x → ys !! i = Some y → is_Ok (f x y)) →
  is_Ok (broadcast err f xs ys).
Proof.
  intros Hlen Hf. rewrite broadcast_same_length by done.
  apply traverse_is_Ok, Forall_lookup. intros i [x y] Hi.
  apply lookup_zip_with_Some in Hi as (x' & y' & [= <- <-] & Hx & Hy).
  simpl. eauto.
Qed.

End broadcast.

Section pad_axis.
Context {A : Type}.
Implicit Types (l : list A).

Lemma pad_reflect_after_spec l after l' :
  pad_reflect_after l after = Ok l' →
  ∃ extra, l' = l ++ extra ∧ length extra = after ∧ ∀ x, x ∈ extra → x ∈ l.
Proof.
  unfold pad_reflect_after. intros H.
  destruct after as [|n].
  { exists []. rewrite app_nil_r. split_and!; [congruence|done|]. by intros x ?%elem_of_nil. }
  destruct l as [|x0 [|x1 l]]; [done| |].
  - exists (replicate (S n) x0). split_and!; [congruence|by rewrite length_replicate|].
    intros x [-> _]%elem_of_replicate. apply list_elem_of_here.
  - set (l0 := x0 :: x1 :: l) in *.
    exists ((λ k, nth (reflect_index (length l0) (length l0 + k)) l0 x0)
              <$> seq 0 (S n)).
    split_and!; [congruence|by rewrite length_fmap, length_seq|].
    intros x (k & -> & _)%list_elem_of_fmap.
    set (idx := reflect_index _ _).
    destruct (nth_in_or_default idx l0 x0) as [Hin| ->].
    + by apply list_elem_of_In.
    + apply list_elem_of_here.
Qed.

Lemma pad_reflect_after_app l after l' :
  pad_reflect_after l after = Ok l' →
  ∃ extra, l' = l ++ extra ∧ length extra = after.
Proof. intros (extra & ? & ? & _)%pad_reflect_after_spec. eauto. Qed.

Lemma pad_reflect_after_elem l after l' x :
  pad_reflect_after l after = Ok l' → x ∈ l' → x ∈ l.
Proof.
  intros (extra & -> & _ & Hextra)%pad_reflect_after_spec.
  intros [?|?]%elem_of_app; eauto.
Qed.

Lemma pad_reflect_after_is_Ok l after :
  after = 0 ∨ l ≠ [] → is_Ok (pad_reflect_after l after).
Proof.
  intros H. unfold pad_reflect_after.
  destruct after as [|n]; [by eexists|].
  destruct l as [|x [|x1 l]]; [by destruct H| |]; by eexists.
Qed.

End pad_axis.

Section pad.
Context {A : Type}.
Implicit Types (img : list (list A)).

Lemma pad_reflect2_crop img pad_h pad_w padded w :
  rectangular w img →
  pad_reflect2 img pad_h pad_w = Ok padded →
  crop (length img) w padded = img.
Proof.
  unfold pad_reflect2, crop, rectangular. intros Hrect H.
  apply bind_Ok in H as (rows & Hrows & H).
  apply pad_reflect_after_app in Hrows as (extra & -> & _).
  apply list_eq. intros i.
  rewrite list_lookup_fmap, lookup_take.
  case_decide as Hi.
  - destruct (lookup_lt_is_Some_2 img i Hi) as [row Hrow].
    rewrite Hrow.
    eapply traverse_lookup in H as (row' & -> & Hrow');
      [|by apply lookup_app_l_Some].
    apply pad_reflect_after_app in Hrow' as (extra' & -> & _). simpl.
    rewrite Forall_lookup in Hrect. rewrite <-(Hrect _ _ Hrow).
    by rewrite take_app_length.
  - simpl. symmetry. apply lookup_ge_None. lia.
Qed.

Lemma pad_reflect2_shape img pad_h pad_w padded w :
  rectangular w img →
  pad_reflect2 img pad_h pad_w = Ok padded →
  length padded = length img + pad_h ∧ rectangular (w + pad_w) padded.
Proof.
  unfold pad_reflect2, rectangular. intros Hrect H.
  apply bind_Ok in H as (rows & Hrows & H).
  apply pad_reflect_after_app in Hrows as Happ. destruct Happ as (extra & -> & Hextra).
  split.
  - apply traverse_length in H. rewrite H, length_app. lia.
  - apply Forall_lookup. intros i row' Hi.
    eapply traverse_lookup_inv in H as (row & Hrow & Hrow'); [|done].
    apply pad_reflect_after_app in Hrow' as (extra' & -> & Hextra').
    rewrite length_app, Hextra'. f_equal.
    assert (row ∈ img) as Hin.
    { eapply pad_reflect_after_elem; [done|]. by eapply list_elem_of_lookup_2. }
    rewrite Forall_forall in Hrect. by apply Hrect.
Qed.

Lemma pad_reflect2_is_Ok img pad_h pad_w w :
  rectangular w img →
  (pad_h = 0 ∨ img ≠ []) → (pad_w = 0 ∨ w ≠ 0) →
  is_Ok (pad_reflect2 img pad_h pad_w).
Proof.
  intros Hrect Hh Hw. unfold pad_reflect2.
  destruct (pad_reflect_after_is_Ok img pad_h Hh) as [rows Hrows].
  rewrite Hrows. simpl.
  apply traverse_is_Ok, Forall_forall. intros row Hin.
  apply pad_reflect_after_is_Ok.
  destruct Hw as [?|Hw]; [by left|right].
  (* rows are rows of img *)
  enough (length row = w) by (destruct row; simpl in *; congruence).
  apply list_elem_of_lookup in Hin as [i Hi].
  assert (pad_reflect2 img pad_h 0 = Ok rows) as H0.
  { unfold pad_reflect2. rewrite Hrows. simpl.
    clear. induction rows as [|r rows IH]; [done|]. simpl.
    replace (pad_reflect_after r 0) with (Ok r) by (by destruct r).
    simpl. by rewrite IH. }
  apply (pad_reflect2_shape _ _ _ _ _ Hrect) in H0 as [_ H0].
  unfold rectangular in H0. rewrite Forall_lookup in H0. rewrite (H0 _ _ Hi). lia.
Qed.

End pad.
Lemma shape2_of_rectangular {A} (a : list (list A)) w :
  rectangular w a → a ≠ [] → shape2 a = (length a, w).
Proof.
  unfold shape2, rectangular. intros Hrect Hne. destruct a as [|row a]; [done|].
  by apply Forall_cons in Hrect as [-> _].
Qed.

Lemma at3_Some {A} (a : list (list (list A))) i j c x :
  at3 a i j c = Some x ↔
  ∃ row px, a !! i = Some row ∧ row !! j = Some px ∧ px !! c = Some x.
Proof.
  unfold at3, at2. split.
  - intros H. destruct (a !! i) as [row|]; [simpl in H|done].
    destruct (row !! j) as [px|] eqn:Hpx; [simpl in H|done]. by exists row, px.
  - intros (row & px & -> & Hpx & Hx). simpl. by rewrite Hpx.
Qed.

Lemma at3_stretched_Some {A} (a : list (list (list A))) i j c x :
  at3_stretched a i j c = Some x ↔
  ∃ row px, a !! stretch_index a i = Some row ∧ row !! stretch_index row j = Some px ∧
            px !! stretch_index px c = Some x.
Proof.
  unfold at3_stretched. split.
  - intros H. destruct (a !! stretch_index a i) as [row|]; [simpl in H|done].
    destruct (row !! stretch_index row j) as [px|] eqn:Hpx; [simpl in H|done]. by exists row, px.
  - intros (row & px & -> & Hpx & Hx). simpl. by rewrite Hpx.
Qed.

Lemma at2_Some {A} (a : list (list A)) i j x :
  at2 a i j = Some x ↔ ∃ row, a !! i = Some row ∧ row !! j = Some x.
Proof.
  unfold at2. split.
  - intros H. destruct (a !! i) as [row|]; [simpl in H|done]. by exists row.
  - by intros (row & -> & Hx).
Qed.

Lemma at2_map2 {A B} (g : A → B) a i j : at2 (map2 g a) i j = g <$> at2 a i j.
Proof.
  unfold at2, map2. rewrite list_lookup_fmap.
  destruct (a !! i) as [row|]; [simpl|done]. by rewrite list_lookup_fmap.
Qed.

Lemma at3_map3 {A B} (g : A → B) a i j c : at3 (map3 g a) i j c = g <$> at3 a i j c.
Proof.
  unfold at3, map3. rewrite at2_map2.
  destruct (at2 a i j) as [px|]; [simpl|done]. by rewrite list_lookup_fmap.
Qed.

Lemma at2_crop {A} (a : list (list A)) h w i j x :
  at2 (crop h w a) i j = Some x → at2 a i j = Some x.
Proof.
  unfold crop. rewrite !at2_Some. intros (row & Hrow & Hx).
  apply list_lookup_fmap_Some in Hrow as (row' & -> & Hrow').
  apply lookup_take_Some in Hrow' as [Hrow' _].
  apply lookup_take_Some in Hx as [Hx _]. eauto.
Qed.

Lemma Forall3_map3 {A B} (g : A → B) (P : B → Prop) a :
  (∀ x, P (g x)) → Forall3 P (map3 g a).
Proof.
  intros HP. unfold Forall3, map3, map2.
  apply Forall_fmap, Forall_true. intros row.
  apply Forall_fmap, Forall_true. intros px.
  apply Forall_fmap, Forall_true. intros x. apply HP.
Qed.

Lemma Forall3_crop {A} (P : A → Prop) h w a : Forall3 P a → Forall3 P (crop h w a).
Proof.
  unfold Forall3, crop. intros H.
  apply Forall_fmap. eapply Forall_impl; [by apply Forall_take|].
  intros row Hrow. by apply Forall_take.
Qed.

End NumpyFacts.

(** ** Broadcasting with stretched axes *)

Module BroadcastFacts.
Import PyFacts NumpyFacts.
Local Open Scope nat_scope.

Lemma stretch_index_lookup {A} (l : list A) i x : l !! i = Some x → l !! stretch_index l i = Some x.
Proof.
  unfold stretch_index. intros H. case_decide as Hlen; [|done].
  apply lookup_lt_Some in H as Hi. by replace i with 0 in H by lia.
Qed.

Lemma stretch_index_id {A} (l : list A) i x : l !! i = Some x → stretch_index l i = i.
Proof.
  unfold stretch_index. intros H%lookup_lt_Some. case_decide; lia.
Qed.

Lemma at3_at3_stretched {A} (a : list (list (list A))) i j c x :
  at3 a i j c = Some x → at3_stretched a i j c = Some x.
Proof.
  rewrite at3_Some, at3_stretched_Some. intros (row & px & ? & ? & ?).
  exists row, px. split_and!; by apply stretch_index_lookup.
Qed.

Section axis.
Context {A B C : Type} (err : exn) (f : A → B → result C).

Lemma broadcast_lengths xs ys zs :
  broadcast err f xs ys = Ok zs →
  (length xs = length zs ∨ length xs = 1) ∧
  (length ys = length zs ∨ length ys = 1).
Proof.
  unfold broadcast. intros H. case_decide as Hlen.
  - apply traverse_length in H. rewrite length_zip_with in H. lia.
  - destruct xs as [|x0 [|x1 xs]], ys as [|y0 [|y1 ys]]; try done;
      apply traverse_length in H; simpl in *; lia.
Qed.

Lemma broadcast_lookup_inv xs ys zs i z :
  broadcast err f xs ys = Ok zs → zs !! i = Some z →
  ∃ x y, xs !! stretch_index xs i = Some x ∧ ys !! stretch_index ys i = Some y ∧ f x y = Ok z.
Proof.
  unfold broadcast. intros H Hz. case_decide as Hlen.
  - eapply traverse_lookup_inv in H as ([x y] & Hxy & Hf); [|done].
    apply lookup_zip_with_Some in Hxy as (x' & y' & [= <- <-] & Hx & Hy).
    exists x, y. eauto using stretch_index_lookup.
  - destruct xs as [|x0 [|x1 xs]], ys as [|y0 [|y1 ys]]; try done.
    all: eapply traverse_lookup_inv in H as (u & Hu & Hf); [|done].
    all: try done.
    all: apply stretch_index_lookup in Hu; eauto.
Qed.

(** The second operand has position [i]: the output there, read with or
    without stretching, is computed from the operand's element. *)
Lemma broadcast_lookup_r xs ys zs i y z :
  broadcast err f xs ys = Ok zs → ys !! i = Some y → zs !! stretch_index zs i = Some z →
  ∃ x, xs !! stretch_index xs (stretch_index zs i) = Some x ∧ f x y = Ok z.
Proof.
  intros H Hy Hz.
  destruct (broadcast_lengths _ _ _ H) as [_ Hlen].
  destruct (broadcast_lookup_inv _ _ _ _ _ H Hz) as (x & y' & Hx & Hy' & Hf).
  exists x. split; [done|].
  enough (y' = y) by congruence.
  apply stretch_index_lookup in Hy. unfold stretch_index in *.
  repeat case_decide; try congruence; lia.
Qed.

Lemma broadcast_lookup_l xs ys zs i x z :
  broadcast err f xs ys = Ok zs → xs !! i = Some x → zs !! stretch_index zs i = Some z →
  ∃ y, ys !! stretch_index ys (stretch_index zs i) = Some y ∧ f x y = Ok z.
Proof.
  intros H Hx Hz.
  destruct (broadcast_lengths _ _ _ H) as [Hlen _].
  destruct (broadcast_lookup_inv _ _ _ _ _ H Hz) as (x' & y & Hx' & Hy & Hf).
  exists y. split; [done|].
  enough (x' = x) by congruence.
  apply stretch_index_lookup in Hx. unfold stretch_index in *.
  repeat case_decide; try congruence; lia.
Qed.

End axis.
Section three.
Context {A B C : Type} (f : A → B → C).

Lemma broadcast3_lookup a b zs i j c x y :
  broadcast3 f a b = Ok zs →
  at3 a i j c = Some x → at3 b i j c = Some y →
  at3 zs i j c = Some (f x y).
Proof.
  unfold broadcast3. rewrite !at3_Some.
  intros H (arow & apx & Ha1 & Ha2 & Ha3) (brow & bpx & Hb1 & Hb2 & Hb3).
  destruct (broadcast_lookup _ _ _ _ _ _ _ _ H Ha1 Hb1) as (zrow & Hz1 & H1).
  destruct (broadcast_lookup _ _ _ _ _ _ _ _ H1 Ha2 Hb2) as (zpx & Hz2 & H2).
  destruct (broadcast_lookup _ _ _ _ _ _ _ _ H2 Ha3 Hb3) as (z & Hz3 & [= <-]).
  eauto.
Qed.

(** The second operand and the output have a position: the output there is
    computed from the first operand read with stretching. *)
Lemma broadcast3_lookup_r a b zs i j c y z :
  broadcast3 f a b = Ok zs →
  at3 b i j c = Some y → at3 zs i j c = Some z →
  ∃ x, at3_stretched a i j c = Some x ∧ z = f x y.
Proof.
  unfold broadcast3. rewrite !at3_Some.
  intros H (brow & bpx & Hb1 & Hb2 & Hb3) (zrow & zpx & Hz1 & Hz2 & Hz3).
  pose proof (stretch_index_id _ _ _ Hz1) as E1.
  pose proof (stretch_index_id _ _ _ Hz2) as E2.
  pose proof (stretch_index_id _ _ _ Hz3) as E3.
  apply stretch_index_lookup in Hz1, Hz2, Hz3.
  destruct (broadcast_lookup_r _ _ _ _ _ _ _ _ H Hb1 Hz1) as (arow & Ha1 & H1).
  destruct (broadcast_lookup_r _ _ _ _ _ _ _ _ H1 Hb2 Hz2) as (apx & Ha2 & H2).
  destruct (broadcast_lookup_r _ _ _ _ _ _ _ _ H2 Hb3 Hz3) as (x & Ha3 & [= <-]).
  rewrite E1 in Ha1. rewrite E2 in Ha2. rewrite E3 in Ha3.
  exists x. split; [|done]. apply at3_stretched_Some. eauto.
Qed.

(** The second operand has a position: the output there, read with
    stretching, is computed from some element of the first operand. *)
Lemma broadcast3_lookup_stretched (P : A → Prop) a b zs i j c y z :
  broadcast3 f a b = Ok zs → Forall3 P a →
  at3 b i j c = Some y → at3_stretched zs i j c = Some z →
  ∃ x, P x ∧ z = f x y.
Proof.
  unfold broadcast3, Forall3. rewrite at3_Some, at3_stretched_Some.
  intros H HP (brow & bpx & Hb1 & Hb2 & Hb3) (zrow & zpx & Hz1 & Hz2 & Hz3).
  destruct (broadcast_lookup_r _ _ _ _ _ _ _ _ H Hb1 Hz1) as (arow & Ha1 & H1).
  destruct (broadcast_lookup_r _ _ _ _ _ _ _ _ H1 Hb2 Hz2) as (apx & Ha2 & H2).
  destruct (broadcast_lookup_r _ _ _ _ _ _ _ _ H2 Hb3 Hz3) as (x & Ha3 & [= <-]).
  exists x. split; [|done].
  rewrite Forall_lookup in HP. specialize (HP _ _ Ha1).
  rewrite Forall_lookup in HP. specialize (HP _ _ Ha2).
  rewrite Forall_lookup in HP. by apply (HP _ _ Ha3).
Qed.

End three.
End BroadcastFacts.

(** ** binary32 on the values of [uint8] *)

Module Float32Facts.
Import Float32 inpaint_service.

(** A property of the [uint8] values that is checked on each of them. *)
Lemma uint8_ind (P : Z → Prop) `{Hdec : !∀ v, Decision (P v)} :
  bool_decide (Forall (λ n, P (Z.of_nat n)) (seq 0 256)) = true →
  ∀ v, 0 ≤ v < 256 → P v.
Proof.
  intros H%bool_decide_eq_true v Hv.
  rewrite Forall_forall in H. rewrite <-(Z2Nat.id v) by lia.
  apply H, elem_of_seq. lia.
Qed.

Ltac uint8_check :=
  lazymatch goal with
  | |- ∀ v, _ → @?P v => apply (uint8_ind P); by vm_compute
  end.

Lemma normalize_0 : normalize 0 = zero.
Proof. by vm_compute. Qed.

Lemma normalize_255 : normalize 255 = one.
Proof. by vm_compute. Qed.

Lemma sub_one_zero : sub one zero = one.
Proof. by vm_compute. Qed.

Lemma sub_one_one : sub one one = zero.
Proof. by vm_compute. Qed.

Lemma mul_zero v : 0 ≤ v < 256 → mul (of_Z v) zero = zero.
Proof. revert v. uint8_check. Qed.

Lemma mul_one v : 0 ≤ v < 256 → mul (of_Z v) one = of_Z v.
Proof. revert v. uint8_check. Qed.

Lemma add_zero_l v : 0 ≤ v < 256 → add zero (of_Z v) = of_Z v.
Proof. revert v. uint8_check. Qed.

Lemma add_zero_r v : 0 ≤ v < 256 → add (of_Z v) zero = of_Z v.
Proof. revert v. uint8_check. Qed.

Lemma to_uint8_of_Z v : 0 ≤ v < 256 → to_uint8 (of_Z v) = v.
Proof. revert v. uint8_check. Qed.

Lemma round_half_even_of_Z v : 0 ≤ v < 256 → round_half_even (of_Z v) = Some v.
Proof. revert v. uint8_check. Qed.

Lemma to_uint8_range x : 0 ≤ to_uint8 x < 256.
Proof. unfold to_uint8. destruct (trunc x); [apply Z.mod_pos_bound|]; lia. Qed.

Lemma blend_0 r o : 0 ≤ r < 256 → 0 ≤ o < 256 → blend r o 0 = of_Z o.
Proof.
  intros Hr Ho. unfold blend.
  by rewrite normalize_0, sub_one_zero, mul_zero, mul_one, add_zero_l.
Qed.

Lemma blend_255 r o : 0 ≤ r < 256 → 0 ≤ o < 256 → blend r o 255 = of_Z r.
Proof.
  intros Hr Ho. unfold blend.
  by rewrite normalize_255, sub_one_one, mul_zero, mul_one, add_zero_r.
Qed.

End Float32Facts.

(** ** Shapes *)

Module ShapeFacts.
Import PyFacts NumpyFacts BroadcastFacts.
Local Open Scope nat_scope.

Lemma has_shape2_shape2 {A} (a : list (list A)) h w :
  has_shape2 h w a → 0 < h → shape2 a = (h, w).
Proof.
  intros [<- Hrect] Hh. apply shape2_of_rectangular; [done|].
  by destruct a; [simpl in Hh; lia|].
Qed.

Lemma has_shape2_lookup {A} (a : list (list A)) h w i j :
  has_shape2 h w a → i < h → j < w → is_Some (at2 a i j).
Proof.
  intros [<- Hrect] Hi Hj. unfold at2, rectangular in *.
  destruct (lookup_lt_is_Some_2 a i Hi) as [row Hrow]. rewrite Hrow. simpl.
  rewrite Forall_lookup in Hrect. apply lookup_lt_is_Some_2.
  by rewrite (Hrect _ _ Hrow).
Qed.

Lemma has_shape2_map2 {A B} (g : A → B) a h w :
  has_shape2 h w a → has_shape2 h w (map2 g a).
Proof.
  unfold has_shape2, rectangular, map2. intros [<- Hrect]. split.
  - by rewrite length_fmap.
  - apply Forall_fmap. eapply Forall_impl; [done|]. intros row <-. simpl.
    by rewrite length_fmap.
Qed.

Lemma has_shape3_map3 {A B} (g : A → B) a h w c :
  has_shape3 h w c a → has_shape3 h w c (map3 g a).
Proof.
  intros [H2 Hc]. split; [by apply has_shape2_map2|].
  unfold map3, map2. apply Forall_fmap. eapply Forall_impl; [done|].
  intros row Hrow. simpl. apply Forall_fmap. eapply Forall_impl; [done|].
  intros px <-. simpl. by rewrite length_fmap.
Qed.

Lemma has_shape2_crop {A} (a : list (list A)) H W h w :
  has_shape2 H W a → h ≤ H → w ≤ W → has_shape2 h w (crop h w a).
Proof.
  unfold has_shape2, rectangular, crop. intros [<- Hrect] Hh Hw. split.
  - rewrite length_fmap, length_take. lia.
  - apply Forall_fmap. eapply Forall_impl; [by apply Forall_take|].
    intros row <-. simpl. rewrite length_take. lia.
Qed.

Lemma has_shape3_crop {A} (a : list (list (list A))) H W c h w :
  has_shape3 H W c a → h ≤ H → w ≤ W → has_shape3 h w c (crop h w a).
Proof.
  intros [H2 Hc] Hh Hw. split; [by eapply has_shape2_crop|].
  unfold crop. apply Forall_fmap. eapply Forall_impl; [by apply Forall_take|].
  intros row Hrow. by apply Forall_take.
Qed.

Lemma crop_same_shape {A} (a : list (list A)) h w :
  has_shape2 h w a → crop h w a = a.
Proof.
  unfold has_shape2, rectangular, crop. intros [<- Hrect].
  rewrite firstn_all. rewrite <-(list_fmap_id a) at 2.
  apply Forall_fmap_ext. eapply Forall_impl; [done|].
  intros row <-. simpl. apply firstn_all.
Qed.

(** Broadcasting two arrays of one shape succeeds and keeps the shape. *)
Lemma broadcast_rows {A B C} err (f : A → B → C) xs ys w :
  length xs = w → length ys = w →
  ∃ zs, broadcast err (λ x y, Ok (f x y)) xs ys = Ok zs ∧ length zs = w.
Proof.
  intros Hx Hy. rewrite broadcast_same_length by congruence.
  rewrite (traverse_pure (λ p, f p.1 p.2)). eexists. split; [done|].
  rewrite length_fmap, length_zip_with. lia.
Qed.

Lemma broadcast_same_shape2 {A B C} err (f : A → B → C) a b h w :
  has_shape2 h w a → has_shape2 h w b →
  ∃ zs, broadcast err (broadcast err (λ x y, Ok (f x y))) a b = Ok zs ∧
        has_shape2 h w zs.
Proof.
  unfold has_shape2, rectangular. intros [Ha Hra] [Hb Hrb].
  rewrite Forall_lookup in Hra. rewrite Forall_lookup in Hrb.
  destruct (broadcast_is_Ok err (broadcast err (λ x y, Ok (f x y))) a b)
    as [zs Hzs]; [congruence| |].
  { intros i x y Hx Hy.
    destruct (broadcast_rows err f x y w) as (z & -> & _); eauto. by eexists. }
  exists zs. split; [done|]. split.
  - apply broadcast_length in Hzs; congruence.
  - apply Forall_lookup. intros i zrow Hz.
    destruct (broadcast_lookup_inv _ _ _ _ _ _ _ Hzs Hz) as (x & y & Hx & Hy & Hf).
    destruct (broadcast_rows err f x y w) as (z & Hz' & Hlen); eauto.
    congruence.
Qed.

Lemma broadcast_same_shape3 {A B C} (f : A → B → C) a b h w c :
  has_shape3 h w c a → has_shape3 h w c b →
  ∃ zs, broadcast3 f a b = Ok zs ∧ has_shape3 h w c zs.
Proof.
  unfold has_shape3, has_shape2, rectangular, broadcast3.
  intros [[Ha Hra] Hca] [[Hb Hrb] Hcb].
  rewrite Forall_lookup in Hra. rewrite Forall_lookup in Hrb.
  rewrite Forall_lookup in Hca. rewrite Forall_lookup in Hcb.
  set (g := broadcast broadcast_error
              (broadcast broadcast_error (λ x y, Ok (f x y)))).
  assert (∀ i x y, a !! i = Some x → b !! i = Some y →
            ∃ z, g x y = Ok z ∧ length z = w ∧ Forall (λ px, length px = c) z)
    as Hrow.
  { intros i x y Hx Hy.
    pose proof (Hca _ _ Hx) as Hcx. pose proof (Hcb _ _ Hy) as Hcy.
    rewrite Forall_lookup in Hcx. rewrite Forall_lookup in Hcy.
    destruct (broadcast_is_Ok broadcast_error
                (broadcast broadcast_error (λ x y, Ok (f x y))) x y)
      as [z Hz].
    { rewrite (Hra _ _ Hx), (Hrb _ _ Hy). done. }
    { intros j px py Hpx Hpy.
      destruct (broadcast_rows broadcast_error f px py c) as (pz & -> & _); eauto.
      by eexists. }
    exists z. split; [done|]. split.
    - apply broadcast_length in Hz; [|by rewrite (Hra _ _ Hx), (Hrb _ _ Hy)].
      rewrite Hz. eauto.
    - apply Forall_lookup. intros j pz Hpz.
      destruct (broadcast_lookup_inv _ _ _ _ _ _ _ Hz Hpz) as (px & py & Hpx & Hpy & Hf).
      destruct (broadcast_rows broadcast_error f px py c) as (pz' & Hz' & Hlen); eauto.
      congruence. }
  destruct (broadcast_is_Ok broadcast_error g a b) as [zs Hzs]; [congruence| |].
  { intros i x y Hx Hy. destruct (Hrow i x y Hx Hy) as (z & -> & _). by eexists. }
  exists zs. split; [done|].
  assert (length zs = h) as Hlen by (apply broadcast_length in Hzs; congruence).
  assert (∀ i zrow, zs !! i = Some zrow →
            length zrow = w ∧ Forall (λ px, length px = c) zrow) as Hz.
  { intros i zrow Hi.
    assert (i < length a) as Hia by (apply lookup_lt_Some in Hi; lia).
    assert (i < length b) as Hib by lia.
    destruct (lookup_lt_is_Some_2 _ _ Hia) as [x Hx].
    destruct (lookup_lt_is_Some_2 _ _ Hib) as [y Hy].
    destruct (broadcast_lookup _ _ _ _ _ _ _ _ Hzs Hx Hy) as (z & Hz1 & Hz2).
    destruct (Hrow i x y Hx Hy) as (z' & Hz' & ? & ?).
    assert (zrow = z') as -> by congruence. done. }
  split_and!; [done| |]; apply Forall_lookup; intros i zrow Hi; by apply (Hz i).
Qed.

End ShapeFacts.

(** ** The inpainting service *)

(** ** Rounding in binary64

    The operations of [SpecFloat] round to nearest.  For the numbers that
    the scaling of an image meets (normal, positive, below [2 ^ 17]) the
    lemmas below bound the error of a division and of an addition, and show
    that halving is exact.  Values are compared as integers, in units of
    [2 ^ -200]. *)

Module Float64Facts.
Import Float64.


























End Float64Facts.

(** ** The source coordinates of a scaled axis *)

Module ScaleFacts.
Import Float64 Float64Facts.

Lemma scale_coords_length a xo n : length (scale_coords a xo n) = n.
Proof. revert xo. induction n as [|n IH]; intros xo; simpl; [done|]. by rewrite IH. Qed.



Section accumulate.
Variables src dst : Z.
Hypothesis Hsrc : 0 < src < 2 ^ 16.
Hypothesis Hdst : 0 < dst < 2 ^ 16.

Let a : float64 := div (of_Z src) (of_Z dst).





End accumulate.


(** A border case: of an axis scaled from 2 to 7 cells, the centre of target
    cell 3 maps to the coordinate 1, the border of the two source cells.  The
    accumulated double lies just below 1, so that source cell 0 is read;
    both cells are nearest. *)
Lemma nearest_coords_2_7 : nearest_coords 2 7 = [0; 0; 0; 0; 1; 1; 1].
Proof. by vm_compute. Qed.

End ScaleFacts.


Module ServiceFacts.
Import PyFacts NumpyFacts BroadcastFacts Float32Facts ShapeFacts inpaint_service.

Ltac bind_step := unfold mbind, result_bind; cbv beta iota.

(** *** Padding *)

Lemma pad_amount_8 (n : nat) :
  let pad := (8 - Z.of_nat n mod 8) mod 8 in
  0 ≤ pad ≤ 7 ∧ (Z.of_nat n + pad) mod 8 = 0 ∧
  Z.of_nat n + pad = 8 * ((Z.of_nat n + 7) / 8).
Proof. simpl. Z.div_mod_to_equations. lia. Qed.

Lemma _pad_to_multiple_8_spec {A} (img : list (list A)) (h w : nat) :
  shape2 img = (h, w) → rectangular w img →
  ∃ padded H W,
    _pad_to_multiple img 8 = Ok (padded, (h, w)) ∧
    shape2 padded = (H, W) ∧ rectangular W padded ∧
    Z.of_nat H = 8 * ((Z.of_nat h + 7) / 8) ∧
    Z.of_nat W = 8 * ((Z.of_nat w + 7) / 8) ∧
    (h ≤ H ≤ h + 7)%nat ∧ (w ≤ W ≤ w + 7)%nat ∧
    Z.of_nat H mod 8 = 0 ∧ Z.of_nat W mod 8 = 0.
Proof.
  intros Hshape Hrect. unfold _pad_to_multiple. rewrite Hshape.
  change (8 =? 0) with false. cbv iota.
  destruct (pad_amount_8 h) as (Hh1 & Hh2 & Hh3).
  destruct (pad_amount_8 w) as (Hw1 & Hw2 & Hw3).
  set (pad_h := (8 - Z.of_nat h mod 8) mod 8) in *.
  set (pad_w := (8 - Z.of_nat w mod 8) mod 8) in *.
  replace ((pad_h <? 0) || (pad_w <? 0)) with false
    by (symmetry; apply orb_false_iff; split; apply Z.ltb_ge; lia).
  assert (length img = h) as Hlen by (by injection Hshape).
  destruct (pad_reflect2_is_Ok img (Z.to_nat pad_h) (Z.to_nat pad_w) w Hrect)
    as [padded Hpad].
  { destruct img; [left|by right]. simpl in Hlen. subst h. by vm_compute. }
  { destruct (decide (w = 0%nat)) as [->|]; [left|by right]. by vm_compute. }
  rewrite Hpad. simpl.
  destruct (pad_reflect2_shape _ _ _ _ _ Hrect Hpad) as [Hlen' Hrect'].
  exists padded, (h + Z.to_nat pad_h)%nat, (w + Z.to_nat pad_w)%nat.
  split_and!; try done; try lia.
  - destruct (decide (padded = [])) as [->|Hne].
    + simpl in Hlen'. assert (h = 0%nat) as -> by lia.
      assert (img = []) as -> by (by destruct img).
      injection Hshape as <-. by vm_compute.
    + rewrite (shape2_of_rectangular _ _ Hrect' Hne). by rewrite Hlen', Hlen.
  - rewrite Nat2Z.inj_add, Z2Nat.id by lia. done.
  - rewrite Nat2Z.inj_add, Z2Nat.id by lia. done.
Qed.

Lemma _pad_to_multiple_recorded {A} (img padded : list (list A)) multiple hw :
  _pad_to_multiple img multiple = Ok (padded, hw) → hw = shape2 img.
Proof.
  unfold _pad_to_multiple. destruct (shape2 img) as [h w].
  destruct (multiple =? 0); [done|]. destruct (_ || _); [done|].
  by intros (padded' & _ & [= _ <-])%bind_Ok.
Qed.

Section shapes.
Local Open Scope nat_scope.

Lemma dilate_shape a h w : has_shape2 h w a → has_shape2 h w (Scipy.dilate a).
Proof.
  unfold has_shape2, rectangular, Scipy.dilate. intros [<- Hrect]. split.
  - by rewrite length_imap.
  - apply Forall_lookup. intros i row Hrow.
    rewrite list_lookup_imap in Hrow.
    destruct (a !! i) as [row0|] eqn:Hrow0; [|done]. injection Hrow as <-.
    rewrite length_imap. rewrite Forall_lookup in Hrect. eauto.
Qed.

Lemma binary_dilation_shape a n h w :
  has_shape2 h w a → has_shape2 h w (Scipy.binary_dilation a n).
Proof.
  intros Ha. unfold Scipy.binary_dilation.
  induction n as [|n IH]; [done|]. simpl. by apply dilate_shape.
Qed.

Lemma mask_dilated_shape mask h w :
  has_shape2 h w mask → has_shape2 h w (mask_dilated (mask_binary mask)).
Proof.
  intros H. unfold mask_dilated, mask_binary.
  by apply has_shape2_map2, binary_dilation_shape, has_shape2_map2, has_shape2_map2.
Qed.

Lemma pad_reflect2_Forall {A} (P : A → Prop) (img padded : list (list A)) pad_h pad_w :
  pad_reflect2 img pad_h pad_w = Ok padded →
  Forall (Forall P) img → Forall (Forall P) padded.
Proof.
  unfold pad_reflect2. intros (rows & Hrows & H)%bind_Ok HP.
  apply Forall_lookup. intros i row' Hi.
  eapply traverse_lookup_inv in H as (row & Hrow & Hrow'); [|done].
  assert (Forall P row) as HProw.
  { rewrite Forall_forall in HP. apply HP.
    eapply pad_reflect_after_elem; [done|]. by eapply list_elem_of_lookup_2. }
  apply Forall_forall. intros x Hx. rewrite Forall_forall in HProw.
  eapply HProw, pad_reflect_after_elem; done.
Qed.

Lemma _pad_to_multiple_Forall {A} (P : A → Prop) (img padded : list (list A)) multiple hw :
  _pad_to_multiple img multiple = Ok (padded, hw) →
  Forall (Forall P) img → Forall (Forall P) padded.
Proof.
  unfold _pad_to_multiple. destruct (shape2 img) as [h w].
  destruct (multiple =? 0)%Z; [done|]. destruct (_ || _); [done|].
  intros (padded' & Hpad & [= <- _])%bind_Ok. by eapply pad_reflect2_Forall.
Qed.

Lemma padded_size_bounds n :
  n ≤ padded_size n ≤ n + 7 ∧ (Z.of_nat (padded_size n) mod 8 = 0)%Z.
Proof. unfold padded_size. split; [|rewrite Z2Nat.id]; Z.div_mod_to_equations; lia. Qed.

Lemma _pad_to_multiple_shape2 {A} (img : list (list A)) h w :
  has_shape2 h w img → 0 < h →
  ∃ padded, _pad_to_multiple img 8 = Ok (padded, (h, w)) ∧
            has_shape2 (padded_size h) (padded_size w) padded.
Proof.
  intros Himg Hh. pose proof (has_shape2_shape2 _ _ _ Himg Hh) as Hshape.
  destruct Himg as [Hlen Hrect].
  destruct (_pad_to_multiple_8_spec img h w Hshape Hrect)
    as (padded & H & W & Hpad & Hshape' & Hrect' & HH & HW & _).
  exists padded. split; [done|].
  assert (H = padded_size h) as <- by (unfold padded_size; lia).
  assert (W = padded_size w) as <- by (unfold padded_size; lia).
  split; [|done]. by injection Hshape'.
Qed.

Lemma permute_201_shape (t : tensor3) h w c :
  has_shape3 h w c t → 0 < h → 0 < w →
  length (permute_201 t) = c ∧ Forall (has_shape2 h w) (permute_201 t).
Proof.
  intros [[Hlen Hrect] Hc] Hh Hw. unfold permute_201.
  assert (match t with (px :: _) :: _ => length px | _ => 0 end = c) as ->.
  { destruct t as [|[|px row] t]; simpl in *; [lia| |].
    - apply Forall_cons in Hrect as [Hrow _]. simpl in Hrow. lia.
    - apply Forall_cons in Hc as [Hrow _]. by apply Forall_cons in Hrow as [-> _]. }
  split; [by rewrite length_fmap, length_seq|].
  apply Forall_fmap, Forall_true. intros k. simpl.
  by apply has_shape2_map2.
Qed.

Lemma permute_120_shape (t : tensor3) h w c :
  length t = c → Forall (has_shape2 h w) t → 0 < c → 0 < h →
  has_shape3 h w c (permute_120 t).
Proof.
  intros Hlen Ht Hc Hh. unfold permute_120.
  destruct t as [|plane t]; [simpl in Hlen; lia|].
  apply Forall_cons in Ht as Hplane. destruct Hplane as [Hplane _].
  rewrite (has_shape2_shape2 _ _ _ Hplane Hh).
  split; [split|].
  - by rewrite length_fmap, length_seq.
  - apply Forall_fmap, Forall_true. intros i. simpl.
    by rewrite length_fmap, length_seq.
  - apply Forall_fmap, Forall_true. intros i. simpl.
    apply Forall_fmap, Forall_true. intros j. simpl.
    by rewrite length_fmap.
Qed.

Lemma mul4_shape (image_planes : tensor3) (mask_plane : tensor2) c h w :
  length image_planes = c → Forall (has_shape2 h w) image_planes →
  has_shape2 h w mask_plane → 1 < c →
  ∃ t, mul4 [image_planes] [[mask_plane]] = Ok t ∧ tensor_shape c h w t.
Proof.
  intros Hlen Himg Hmask Hc. unfold mul4.
  rewrite (broadcast_same_length _ _ [image_planes] [[mask_plane]]) by done.
  simpl.
  set (g := broadcast size_mismatch
              (broadcast size_mismatch (λ x y, Ok (Float32.mul x y)))).
  assert (broadcast size_mismatch g image_planes [mask_plane]
          = traverse (λ x, g x mask_plane) image_planes) as ->.
  { unfold tensor3, tensor2 in *.
    unfold broadcast. case_decide as Hl; [simpl in Hl; lia|].
    by destruct image_planes as [|x0 [|x1 ?]]; [simpl in *; lia..|]. }
  assert (∀ x, has_shape2 h w x →
            ∃ z, g x mask_plane = Ok z ∧ has_shape2 h w z) as Hg.
  { intros x Hx. by apply broadcast_same_shape2. }
  destruct (traverse_is_Ok (λ x, g x mask_plane) image_planes) as [planes Hplanes].
  { eapply Forall_impl; [done|]. intros x Hx. simpl.
    destruct (Hg x Hx) as (z & -> & _). by eexists. }
  rewrite Hplanes. simpl. eexists. split; [done|].
  exists planes. split_and!; [done| |].
  - apply traverse_length in Hplanes. exact (eq_trans Hplanes Hlen).
  - apply Forall_lookup. intros i z Hz.
    eapply traverse_lookup_inv in Hplanes as (x & Hx & Hgx); [|done].
    rewrite Forall_lookup in Himg.
    destruct (Hg x (Himg _ _ Hx)) as (z' & Hz' & ?). congruence.
Qed.

End shapes.

(** *** Compositing *)

Section composite.
Context `{hub : !Hub}.

Lemma mask_dilated_values mb i j md :
  at2 (mask_dilated mb) i j = Some md → md = 0 ∨ md = 255.
Proof.
  unfold mask_dilated. rewrite at2_map2.
  destruct (at2 _ i j) as [[]|]; intros [= <-]; auto.
Qed.

Lemma mask_3ch_lookup md_arr h w i j c md :
  at2 (crop h w md_arr) i j = Some md → (c < 3)%nat →
  at3 (mask_3ch md_arr h w) i j c = Some (normalize md).
Proof.
  intros Hmd Hc. unfold mask_3ch, at3. rewrite !at2_map2, Hmd. simpl.
  by destruct c as [|[|[|c]]]; [..|lia].
Qed.

(** One channel of one pixel of the composite, at a position that the
    result of the network, the original image and the mask all have. *)
Lemma composite_pixel result original md_arr h w out i j c r o md :
  composite result original (mask_3ch md_arr h w) = Ok out →
  at3 result i j c = Some r →
  at3 original i j c = Some o →
  at2 (crop h w md_arr) i j = Some md → (c < 3)%nat →
  at3 out i j c = Some (Float32.to_uint8 (blend r o md)).
Proof.
  unfold composite. intros H Hr Ho Hmd Hc.
  apply bind_Ok in H as (a & Ha & H).
  apply bind_Ok in H as (b & Hb & H).
  apply bind_Ok in H as (s & Hs & [= <-]).
  pose proof (mask_3ch_lookup _ _ _ _ _ _ _ Hmd Hc) as Hm.
  pose proof (broadcast3_lookup _ _ _ _ _ _ _ _ _ Ha Hr Hm) as Hav.
  assert (at3 (map3 (λ m, Float32.sub Float32.one m) (mask_3ch md_arr h w)) i j c
          = Some (Float32.sub Float32.one (normalize md))) as Hm1
    by (by rewrite at3_map3, Hm).
  pose proof (broadcast3_lookup _ _ _ _ _ _ _ _ _ Hb Ho Hm1) as Hbv.
  pose proof (broadcast3_lookup _ _ _ _ _ _ _ _ _ Hs Hav Hbv) as Hsv.
  by rewrite at3_map3, Hsv.
Qed.

(** One channel of one pixel of the composite, at a position that the
    original image and the mask have: the value of the network that enters
    it is one of the values of [result], whatever the shape of [result]. *)
Lemma composite_pixel_any (P : Z → Prop) result original md_arr h w out i j c o md v :
  composite result original (mask_3ch md_arr h w) = Ok out →
  Forall3 P result →
  at3 original i j c = Some o →
  at2 (crop h w md_arr) i j = Some md → (c < 3)%nat →
  at3 out i j c = Some v →
  ∃ r, P r ∧ v = Float32.to_uint8 (blend r o md).
Proof.
  unfold composite. intros H HP Ho Hmd Hc Hv.
  apply bind_Ok in H as (a & Ha & H).
  apply bind_Ok in H as (b & Hb & H).
  apply bind_Ok in H as (s & Hs & [= <-]).
  pose proof (mask_3ch_lookup _ _ _ _ _ _ _ Hmd Hc) as Hm.
  rewrite at3_map3 in Hv.
  destruct (at3 s i j c) as [sv|] eqn:Hsv; [|done]. injection Hv as <-.
  assert (at3 (map3 (λ m, Float32.sub Float32.one m) (mask_3ch md_arr h w)) i j c
          = Some (Float32.sub Float32.one (normalize md))) as Hm1
    by (by rewrite at3_map3, Hm).
  pose proof (broadcast3_lookup _ _ _ _ _ _ _ _ _ Hb Ho Hm1) as Hbv.
  destruct (broadcast3_lookup_r _ _ _ _ _ _ _ _ _ Hs Hbv Hsv) as (av & Hav & ->).
  destruct (broadcast3_lookup_stretched _ P _ _ _ _ _ _ _ _ Ha HP Hm Hav)
    as (r & Hr & ->).
  by exists r.
Qed.

Lemma inpaint_result_Ok m image md result hw :
  inpaint_result m image md = Ok (result, hw) →
  hw = shape2 image ∧ Forall3 uint8 result.
Proof.
  unfold inpaint_result.
  intros ([image_padded [orig_h orig_w]] & Hpad & H)%bind_Ok.
  apply _pad_to_multiple_recorded in Hpad as Hhw.
  apply bind_Ok in H as ([mask_padded ?] & _ & H).
  apply bind_Ok in H as ([image_tensor mask_tensor] & _ & H).
  apply bind_Ok in H as (res & _ & H).
  apply bind_Ok in H as (res8 & Hres & [= <- <-]).
  split; [done|]. apply Forall3_crop.
  unfold model_output in Hres. destruct res as [|chw [|]]; try done.
  injection Hres as <-. apply Forall3_map3. intros x. apply to_uint8_range.
Qed.

Lemma inpaint_with_Ok m image mask out :
  inpaint_with m image mask = Ok out →
  ∃ result,
    inpaint_result m image (mask_dilated (mask_binary mask))
      = Ok (result, shape2 image) ∧
    composite result image
      (mask_3ch (mask_dilated (mask_binary mask))
         (shape2 image).1 (shape2 image).2) = Ok out.
Proof.
  unfold inpaint_with.
  intros ([result [orig_h orig_w]] & Hres & H)%bind_Ok.
  destruct (inpaint_result_Ok _ _ _ _ _ Hres) as [Hhw _].
  exists result. rewrite <-Hhw. done.
Qed.

Lemma inpaint_Ok self image mask w out w' :
  inpaint self image mask w = (Ok out, w') →
  ∃ m, heap w' !! self ≫= model = Some m ∧ inpaint_with m image mask = Ok out.
Proof.
  unfold inpaint, seq_bind.
  destruct (_load_model self w) as [[[]|e] w1]; [|done].
  destruct (heap w1 !! self ≫= model) as [m|] eqn:Hm; [|done].
  intros [= H <-]. eauto.
Qed.

Lemma Forall3_at3 {A} (P : A → Prop) a i j c x :
  Forall3 P a → at3 a i j c = Some x → P x.
Proof.
  intros HP (row & px & H1 & H2 & H3)%at3_Some.
  unfold Forall3 in HP. rewrite Forall_lookup in HP.
  specialize (HP _ _ H1). rewrite Forall_lookup in HP.
  specialize (HP _ _ H2). rewrite Forall_lookup in HP. eauto.
Qed.

End composite.

(** *** Success on well-shaped input *)

Section no_error.
Context `{hub : !Hub}.
Local Open Scope nat_scope.

Lemma has_shape2_stack {A} (a : list (list A)) h w :
  has_shape2 h w a → has_shape3 h w 3 (map2 (λ m, [m; m; m]) a).
Proof.
  intros Ha. split; [by apply has_shape2_map2|].
  unfold map2. apply Forall_fmap, Forall_true. intros row. simpl.
  apply Forall_fmap, Forall_true. by intros x.
Qed.

Lemma mask_3ch_shape md h w :
  has_shape2 h w md → has_shape3 h w 3 (mask_3ch md h w).
Proof.
  intros Hmd. unfold mask_3ch. rewrite (crop_same_shape _ _ _ Hmd).
  by apply has_shape2_stack, has_shape2_map2.
Qed.

Lemma composite_shape result original m3 h w :
  has_shape3 h w 3 result → has_shape3 h w 3 original → has_shape3 h w 3 m3 →
  ∃ out, composite result original m3 = Ok out ∧ has_shape3 h w 3 out.
Proof.
  intros Hr Ho Hm.
  destruct (broadcast_same_shape3
              (λ r m, Float32.mul (Float32.of_Z r) m) _ _ _ _ _ Hr Hm)
    as (a & Ea & Ha).
  destruct (broadcast_same_shape3
              (λ o m, Float32.mul (Float32.of_Z o) m) _ _ _ _ _ Ho
              (has_shape3_map3 (λ m, Float32.sub Float32.one m) _ _ _ _ Hm))
    as (b & Eb & Hb).
  destruct (broadcast_same_shape3 Float32.add _ _ _ _ _ Ha Hb) as (s & Es & Hs).
  exists (map3 Float32.to_uint8 s). split; [|by apply has_shape3_map3].
  unfold composite. rewrite Ea. bind_step. rewrite Eb. bind_step.
  rewrite Es. by bind_step.
Qed.

Lemma model_input_shape image_padded mask_padded H W :
  has_shape3 H W 3 image_padded → has_shape2 H W mask_padded → 0 < H → 0 < W →
  ∃ image_tensor mask_tensor,
    model_input image_padded mask_padded = Ok (image_tensor, mask_tensor) ∧
    tensor_shape 3 H W image_tensor ∧ tensor_shape 1 H W mask_tensor.
Proof.
  intros Himg Hmask HH HW.
  destruct (permute_201_shape (map3 normalize image_padded) H W 3)
    as [Hlen Hplanes]; [by apply has_shape3_map3|done..|].
  destruct (mul4_shape (permute_201 (map3 normalize image_padded))
              (map2 (λ m, Float32.sub Float32.one m) (map2 normalize mask_padded))
              3 H W) as (t & Et & Ht); [done|done| |lia|].
  { by apply has_shape2_map2, has_shape2_map2. }
  exists t, [[map2 normalize mask_padded]]. split_and!; [|done|].
  - unfold model_input. cbv zeta.
    replace (mul4 _ _) with (Ok t) by (symmetry; exact Et). done.
  - eexists. split_and!; [done|done|].
    constructor; [by apply has_shape2_map2|constructor].
Qed.

Lemma model_output_shape t H W :
  tensor_shape 3 H W t → 0 < H →
  ∃ result, model_output t = Ok result ∧ has_shape3 H W 3 result.
Proof.
  intros (chw & -> & Hlen & Hplanes) HH. unfold model_output.
  eexists. split; [done|].
  apply has_shape3_map3, permute_120_shape; [done|done|lia|done].
Qed.

Lemma inpaint_with_shape m image mask h w :
  has_shape3 h w 3 image → has_shape2 h w mask → 0 < h → 0 < w →
  keeps_shape m →
  ∃ out, inpaint_with m image mask = Ok out ∧ has_shape3 h w 3 out.
Proof.
  intros [Himg Hpx] Hmask Hh Hw Hm.
  pose proof (mask_dilated_shape _ _ _ Hmask) as Hmd.
  destruct (padded_size_bounds h) as [Hbh Hmh].
  destruct (padded_size_bounds w) as [Hbw Hmw].
  unfold inpaint_with, inpaint_result.
  destruct (_pad_to_multiple_shape2 image h w Himg Hh) as (image_padded & Hpi & Hip).
  destruct (_pad_to_multiple_shape2 _ h w Hmd Hh) as (mask_padded & Hpm & Hmp).
  pose proof (_pad_to_multiple_Forall _ _ _ _ _ Hpi Hpx) as Hpx'.
  rewrite Hpi. bind_step. rewrite Hpm. bind_step.
  destruct (model_input_shape image_padded mask_padded _ _ (conj Hip Hpx') Hmp)
    as (image_tensor & mask_tensor & -> & Hit & Hmt); [lia..|]. bind_step.
  destruct (Hm _ _ _ _ Hit Hmt) as (t & -> & Ht); [lia|lia|done|done|]. bind_step.
  destruct (model_output_shape t _ _ Ht) as (result & -> & Hres); [lia|]. bind_step.
  apply composite_shape; [|done|by apply mask_3ch_shape].
  eapply has_shape3_crop; [done|lia..].
Qed.

Lemma nearest_coords_length src dst : length (nearest_coords src dst) = dst.
Proof. apply ScaleFacts.scale_coords_length. Qed.

Lemma resize_nearest_shape (mask_np : list (list Z)) hm wm h w :
  has_shape2 hm wm mask_np → 0 < hm → 0 < wm → 0 < h → 0 < w →
  ∃ mask_pil,
    resize_nearest (fromarray2 mask_np) (w, h) = Ok mask_pil ∧
    has_shape2 h w (np_array2 mask_pil).
Proof.
  intros Hmask Hhm Hwm Hh Hw. unfold resize_nearest.
  assert (shape2 (pixels (fromarray2 mask_np)) = (hm, wm)) as ->.
  { apply has_shape2_shape2; [|done]. by apply has_shape2_map2. }
  case_decide as Hz; [lia|]. eexists. split; [done|].
  unfold np_array2. cbn [pixels]. apply has_shape2_map2. split.
  - by rewrite length_fmap, nearest_coords_length.
  - apply Forall_fmap, Forall_true. intros yi. simpl.
    by rewrite length_imap, length_fmap, nearest_coords_length.
Qed.



End no_error.

(** *** The singleton and the lazy load *)

Section singleton.
Context `{hub : !Hub}.

Lemma _load_model_single_instance self w :
  single_instance w → single_instance (_load_model self w).2.
Proof.
  intros Hw. unfold _load_model.
  destruct (heap w !! self) as [o|] eqn:Hself; [|done].
  destruct (model o); [done|].
  destruct Hw as [(Hheap & _)|(o' & Hheap & Hinit & Hinst & Hglob)].
  { by rewrite Hheap in Hself. }
  assert (self = 0%nat ∧ o' = o) as [-> ->].
  { rewrite Hheap in Hself. destruct self as [|[|]]; naive_solver. }
  destruct (hf_hub_download _ _ _) as [path|e]; simpl.
  - destruct (torch_jit_load path) as [m|e]; simpl.
    + right. eexists. rewrite Hheap. simpl. eauto.
    + right. eauto.
  - right. eauto.
Qed.

Lemma LaMaInpainter_call_single_instance w :
  single_instance w →
  ∃ w', LaMaInpainter_call w = (Ok 0%nat, w') ∧
        _inpainter w' = _inpainter w ∧ downloads w' = downloads w ∧
        ∃ o, heap w' = [o] ∧ _initialized o = true ∧ _instance w' = Some 0%nat ∧
             (heap w ≠ [] → w' = w).
Proof.
  intros [(Hheap & Hinst & Hglob)|(o & Hheap & Hinit & Hinst & Hglob)];
    unfold LaMaInpainter_call, seq_bind, __new__, __init__, ret; rewrite Hinst.
  - rewrite Hheap. simpl. eexists. split; [done|]. simpl.
    split_and!; [done..|]. eexists. split_and!; done.
  - rewrite Hheap. simpl. rewrite Hinit.
    exists w. split_and!; [done..|]. exists o. by rewrite Hheap.
Qed.

Lemma get_inpainter_single_instance w :
  single_instance w →
  ∃ w', get_inpainter w = (Ok 0%nat, w') ∧ single_instance w' ∧
        _inpainter w' = Some 0%nat ∧ length (heap w') = 1%nat ∧
        downloads w' = downloads w ∧ (heap w ≠ [] → heap w' = heap w).
Proof.
  intros Hw. unfold get_inpainter.
  destruct (_inpainter w) as [a|] eqn:Ha.
  - destruct Hw as [(_ & _ & Hglob)|(o & Hheap & Hinit & Hinst & [Hglob|Hglob])];
      try congruence.
    assert (a = 0%nat) as -> by congruence.
    exists w. split_and!; try done.
    + right. exists o. split_and!; auto.
    + by rewrite Hheap.
  - destruct (LaMaInpainter_call_single_instance w Hw)
      as (w' & -> & _ & Hd & o & Hheap & Hinit & Hinst & Hsame).
    eexists. split; [done|]. simpl. split_and!; try done.
    + right. exists o. eauto.
    + by rewrite Hheap.
    + by intros ->%Hsame.
Qed.

Lemma reachable_single_instance w : reachable w → single_instance w.
Proof.
  induction 1 as [|c w _ IH].
  - left. done.
  - destruct c as [| |self|self image mask]; simpl.
    + by destruct (get_inpainter_single_instance w IH) as (w' & -> & ? & _).
    + destruct (LaMaInpainter_call_single_instance w IH)
        as (w' & -> & Hglob & _ & o & Hheap & Hinit & Hinst & _). simpl.
      right. exists o. split_and!; try done.
      rewrite Hglob. destruct IH as [(_ & _ & ->)|(_ & _ & _ & _ & ?)]; auto.
    + by apply _load_model_single_instance.
    + unfold inpaint, seq_bind.
      pose proof (_load_model_single_instance self w IH) as Hload.
      destruct (_load_model self w) as [[[]|e] w1]; [|done].
      by destruct (heap w1 !! self ≫= model).
Qed.

(** Once the handle is set, no call fetches again or changes the handle. *)
Lemma loaded_stays_loaded c w o m :
  single_instance w → heap w !! 0%nat = Some o → model o = Some m →
  downloads (after c w) = downloads w ∧ heap (after c w) = heap w.
Proof.
  intros Hw Ho Hm.
  assert (heap w ≠ []) as Hne by (by destruct (heap w)).
  assert (∀ self, (_load_model self w).2 = w) as Hload.
  { intros self. unfold _load_model.
    destruct (heap w !! self) as [o'|] eqn:Hself; [|done].
    destruct Hw as [(Hheap & _)|(o'' & Hheap & _)]; [done|].
    rewrite Hheap in Ho, Hself. destruct self as [|[|]]; [|done..].
    simpl in *. assert (o' = o) as -> by congruence. by rewrite Hm. }
  destruct c as [| |self|self image mask]; simpl.
  - destruct (get_inpainter_single_instance w Hw) as (w' & -> & _ & _ & _ & ? & Hh).
    auto.
  - destruct (LaMaInpainter_call_single_instance w Hw)
      as (w' & -> & _ & _ & _ & _ & _ & _ & Hsame).
    simpl. by rewrite (Hsame Hne).
  - by rewrite Hload.
  - unfold inpaint, seq_bind. specialize (Hload self).
    destruct (_load_model self w) as [[[]|e] w1]; simpl in Hload; subst w1; [|done].
    by destruct (heap w !! self ≫= model).
Qed.

Local Open Scope nat_scope.

Lemma inpaint_is_Ok st image mask h w :
  single_instance st → heap st ≠ [] →
  hub_available → (∀ m, keeps_shape m) →
  has_shape3 h w 3 image → has_shape2 h w mask → 0 < h → 0 < w →
  ∃ out st', inpaint 0 image mask st = (Ok out, st') ∧ has_shape3 h w 3 out.
Proof.
  intros [(? & _)|(o & Hheap & _)] Hne Hhub Hkeeps Himg Hmask Hh Hw; [done|].
  unfold inpaint, seq_bind, _load_model. rewrite Hheap. simpl.
  destruct (model o) as [m|] eqn:Hm.
  - rewrite Hheap. simpl. rewrite Hm.
    destruct (inpaint_with_shape m image mask h w) as (out & -> & Hout); eauto.
  - destruct (Hhub (downloads st)) as (model_path & m & -> & ->). simpl.
    destruct (inpaint_with_shape m image mask h w) as (out & -> & Hout); eauto.
Qed.

End singleton.

End ServiceFacts.

(** ** The codec and the route *)

Module PyStrFacts.
Import PyStr.

Lemma span_all P s : all_chars P s = true → span P s = (s, EmptyString).
Proof.
  induction s as [|a s IH]; [done|]. simpl.
  intros [-> Hs]%andb_true_iff. by rewrite IH.
Qed.

Lemma all_chars_impl (P Q : ascii → bool) s :
  (∀ c, P c = true → Q c = true) → all_chars P s = true → all_chars Q s = true.
Proof.
  intros HPQ. induction s as [|a s IH]; [done|]. simpl.
  intros [Ha Hs]%andb_true_iff. rewrite (HPQ _ Ha). simpl. auto.
Qed.

Lemma base64_char_not_newline c :
  is_base64_char c = true → negb (Ascii.eqb c newline) = true.
Proof.
  intros H. apply negb_true_iff, Ascii.eqb_neq. intros ->. by vm_compute in H.
Qed.

Lemma match_data_url_png payload :
  payload ≠ EmptyString → all_chars is_base64_char payload = true →
  match_data_url ("data:image/png;base64," +:+ payload) = Some payload.
Proof.
  intros Hne Hall. unfold match_data_url. simpl.
  change (EmptyString +:+ payload) with payload.
  rewrite span_all by (by eapply all_chars_impl, Hall; apply base64_char_not_newline).
  by destruct (decide (payload = EmptyString)).
Qed.

End PyStrFacts.

Module RoutesFacts.
Import PyFacts inpaint_service.
Section routes.
Import PyStr image_utils routes.
Context `{hub : !Hub, codec : !Codec, base64 : !Base64}.

(** An exception of the first decoding leaves the [try] block at once. *)
Lemma inpaint_decode_raises request w e :
  decode_base64_image (image request) = Raise e →
  inpaint request w =
    (if isinstance_ValueError e then
       HTTPException 400 ("Invalid image data: " +:+ str e)
     else HTTPException 500 ("Inpainting failed: " +:+ str e), w).
Proof.
  intros H. unfold inpaint, inpaint_try, seq_bind, lift. rewrite H.
  by destruct (isinstance_ValueError e).
Qed.

(** A prefix [data:] that the pattern does not match is answered with 400. *)
Lemma inpaint_bad_data_url request w :
  startswith (image request) "data:" = true →
  match_data_url (image request) = None →
  inpaint request w =
    (HTTPException 400 "Invalid image data: Invalid data URL format", w).
Proof.
  intros Hprefix Hmatch. rewrite (inpaint_decode_raises _ _ (ValueError "Invalid data URL format")); [done|].
  unfold decode_base64_image. by rewrite Hprefix, Hmatch.
Qed.

(** A payload that [b64decode] rejects is answered with 400. *)
Lemma inpaint_bad_base64 request w msg :
  startswith (image request) "data:" = false →
  b64decode (image request) = Raise (binascii_Error msg) →
  inpaint request w = (HTTPException 400 ("Invalid image data: " +:+ msg), w).
Proof.
  intros Hprefix Hb64. rewrite (inpaint_decode_raises _ _ (binascii_Error msg)); [done|].
  unfold decode_base64_image. rewrite Hprefix. simpl. by rewrite Hb64.
Qed.

End routes.
End RoutesFacts.

(* ===================================================================== *)
(** * The properties of the specification                                *)
(* ===================================================================== *)

Section properties.
Import PyFacts NumpyFacts BroadcastFacts Float32Facts ShapeFacts ServiceFacts.
Import PyStr PyStrFacts RoutesFacts inpaint_service.
Context `{hub : !Hub, codec : !Codec, base64 : !Base64}.

(** C1. Outside the dilated mask the composite is the original image: at
    every position [(i, j)] where the dilated mask, cropped to the recorded
    size, is 0, each of the three channels of the pixel that [inpaint]
    returns is the channel of the input pixel, bit for bit. *)
Theorem composite_keeps_unmasked_pixels self image mask w out w' i j c o v :
  inpaint self image mask w = (Ok out, w') →
  at2 (crop (shape2 image).1 (shape2 image).2 (mask_dilated (mask_binary mask))) i j
    = Some 0 →
  at3 image i j c = Some o → uint8 o → (c < 3)%nat →
  at3 out i j c = Some v →
  v = o.
Proof.
  intros (m & _ & (result & Hres & Hcomp)%inpaint_with_Ok)%inpaint_Ok Hmd Ho Hu Hc Hv.
  apply inpaint_result_Ok in Hres as [_ Hrange].
  destruct (composite_pixel_any _ _ _ _ _ _ _ _ _ _ _ _ _ Hcomp Hrange Ho Hmd Hc Hv)
    as (r & Hr & ->).
  by rewrite blend_0, to_uint8_of_Z.
Qed.

(** C3. Every channel of every pixel of the composite is
    [round(model_output * weight + original_input * (1 - weight))] in
    binary32, where [model_output] is the cropped 8-bit output of the network
    and [weight] is the cropped dilated mask divided by 255, the same for the
    three channels.  The code drops the fraction where the formula rounds; the
    two agree because the blend is always a whole number. *)
Theorem composite_is_rounded_blend self image mask w out w' :
  inpaint self image mask w = (Ok out, w') →
  ∃ m model_output,
    heap w' !! self ≫= model = Some m ∧
    inpaint_result m image (mask_dilated (mask_binary mask))
      = Ok (model_output, shape2 image) ∧
    ∀ i j c r o md,
      at3 model_output i j c = Some r →
      at3 image i j c = Some o → uint8 o →
      at2 (crop (shape2 image).1 (shape2 image).2
             (mask_dilated (mask_binary mask))) i j = Some md →
      (c < 3)%nat →
      let weight := Float32.div (Float32.of_Z md) (Float32.of_Z 255) in
      at3 out i j c
      = Float32.round_half_even
          (Float32.add (Float32.mul (Float32.of_Z r) weight)
             (Float32.mul (Float32.of_Z o) (Float32.sub Float32.one weight))).
Proof.
  intros (m & Hm & (result & Hres & Hcomp)%inpaint_with_Ok)%inpaint_Ok.
  exists m, result. split_and!; [done..|].
  intros i j c r o md Hr Ho Hu Hmd Hc weight.
  apply inpaint_result_Ok in Hres as [_ Hrange].
  pose proof (Forall3_at3 _ _ _ _ _ _ Hrange Hr) as Hur.
  rewrite (composite_pixel _ _ _ _ _ _ _ _ _ _ _ _ Hcomp Hr Ho Hmd Hc).
  change (Float32.add _ _) with (blend r o md).
  destruct (mask_dilated_values _ _ _ _ (at2_crop _ _ _ _ _ _ Hmd)) as [-> | ->].
  - by rewrite blend_0, to_uint8_of_Z, round_half_even_of_Z.
  - by rewrite blend_255, to_uint8_of_Z, round_half_even_of_Z.
Qed.

(** C4. Padding to a multiple of 8 returns an array whose height and width
    are the original ones rounded up to the next multiple of 8: each is a
    multiple of 8 and 0 to 7 larger than the original; the recorded [(h, w)]
    is the original shape. *)
Theorem pad_to_multiple_8_dimensions {A} (img : list (list A)) (h w : nat) :
  shape2 img = (h, w) → rectangular w img →
  ∃ padded H W,
    _pad_to_multiple img 8 = Ok (padded, (h, w)) ∧
    shape2 padded = (H, W) ∧ rectangular W padded ∧
    Z.of_nat H = 8 * ((Z.of_nat h + 7) / 8) ∧
    Z.of_nat W = 8 * ((Z.of_nat w + 7) / 8) ∧
    (h ≤ H ≤ h + 7)%nat ∧ (w ≤ W ≤ w + 7)%nat ∧
    Z.of_nat H mod 8 = 0 ∧ Z.of_nat W mod 8 = 0.
Proof. apply _pad_to_multiple_8_spec. Qed.

(** C5. Decoding the data URI that encoding with the default format (PNG)
    produces gives back the image, for every image that the PNG codec stores
    and reads back and whose file base64 carries: the wrapping as a data URI
    and its unwrapping lose nothing. *)
Theorem decode_encode_png (img : Image) (buffer : list Byte.byte) :
  Image_save img image_utils.default_format = Ok buffer →
  Image_open buffer = Ok img →
  b64decode (b64encode buffer) = Ok buffer →
  b64encode buffer ≠ EmptyString →
  all_chars is_base64_char (b64encode buffer) = true →
  ∃ data_url,
    image_utils.encode_image_to_base64 img image_utils.default_format = Ok data_url ∧
    image_utils.decode_base64_image data_url = Ok img.
Proof.
  intros Hsave Hopen Hb64 Hne Hall.
  exists ("data:image/png;base64," +:+ b64encode buffer). split.
  - unfold image_utils.encode_image_to_base64. by rewrite Hsave.
  - unfold image_utils.decode_base64_image.
    change (startswith _ _) with true. cbv iota.
    rewrite match_data_url_png by done. simpl. by rewrite Hb64.
Qed.

(** C6. Binarisation (255 where the mask is greater than 127, else 0) is
    idempotent. *)
Theorem mask_binary_idempotent (mask : list (list Z)) :
  mask_binary (mask_binary mask) = mask_binary mask.
Proof.
  unfold mask_binary, map2.
  rewrite <-list_fmap_compose. apply list_fmap_ext. intros _ row _. simpl.
  rewrite <-list_fmap_compose. apply list_fmap_ext. intros _ v _. simpl.
  by destruct (127 <? v).
Qed.


(** C8. In every state that sequential calls reach: [get_inpainter] returns
    the one instance, the only object ever allocated, and returns it again;
    a load with no handle set fetches the checkpoint once, deserialises it and
    sets the handle, and a load with the handle set changes nothing; once the
    handle is set no call fetches again or replaces it. *)
Theorem model_acquired_once_and_instance_unique w :
  reachable w →
  (∃ w1, get_inpainter w = (Ok 0%nat, w1) ∧ length (heap w1) = 1%nat ∧
         get_inpainter w1 = (Ok 0%nat, w1)) ∧
  (∀ self o, heap w !! self = Some o →
     match model o with
     | Some _ => _load_model self w = (Ok (), w)
     | None =>
         ∀ model_path m,
           hf_hub_download (downloads w) repo_id filename = Ok model_path →
           torch_jit_load model_path = Ok m →
           ∃ w', _load_model self w = (Ok (), w') ∧
                 heap w' !! self ≫= model = Some m ∧
                 downloads w' = S (downloads w) ∧
                 _load_model self w' = (Ok (), w')
     end) ∧
  (∀ o m c, heap w !! 0%nat = Some o → model o = Some m →
     downloads (after c w) = downloads w ∧ heap (after c w) = heap w).
Proof.
  intros Hw%reachable_single_instance. split_and!.
  - destruct (get_inpainter_single_instance w Hw) as (w1 & H1 & Hw1 & Hglob & Hlen & _).
    exists w1. split_and!; [done..|].
    unfold get_inpainter. by rewrite Hglob.
  - intros self o Hself. unfold _load_model at 1 2. rewrite Hself.
    destruct (model o) as [m0|] eqn:Hmodel; [done|].
    intros model_path m -> ->. eexists. split; [done|].
    assert (self < length (heap w))%nat as Hlt by (by eapply lookup_lt_Some).
    unfold _load_model, set_object. simpl.
    rewrite list_lookup_insert_eq by done. simpl. done.
  - intros o m c. by apply loaded_stays_loaded.
Qed.

(** C9. After binarisation and dilation every mask value is 0 or 255, so
    every blend weight is exactly 0 or 1, and every channel of every pixel of
    the composite is the value of the network's output or the value of the
    original image there: nothing is blended in fractions. *)
Theorem dilated_mask_is_binary_and_blend_selects self image mask w out w' :
  inpaint self image mask w = (Ok out, w') →
  (∀ i j md,
     at2 (mask_dilated (mask_binary mask)) i j = Some md →
     (md = 0 ∨ md = 255) ∧
     (Float32.div (Float32.of_Z md) (Float32.of_Z 255) = Float32.zero ∨
      Float32.div (Float32.of_Z md) (Float32.of_Z 255) = Float32.one)) ∧
  ∃ m model_output,
    heap w' !! self ≫= model = Some m ∧
    inpaint_result m image (mask_dilated (mask_binary mask))
      = Ok (model_output, shape2 image) ∧
    ∀ i j c r o md,
      at3 model_output i j c = Some r →
      at3 image i j c = Some o → uint8 o →
      at2 (crop (shape2 image).1 (shape2 image).2
             (mask_dilated (mask_binary mask))) i j = Some md →
      (c < 3)%nat →
      at3 out i j c = Some r ∨ at3 out i j c = Some o.
Proof.
  intros (m & Hm & (result & Hres & Hcomp)%inpaint_with_Ok)%inpaint_Ok. split.
  - intros i j md [-> | ->]%mask_dilated_values.
    + split; [by left|left]. apply normalize_0.
    + split; [by right|right]. apply normalize_255.
  - exists m, result. split_and!; [done..|].
    intros i j c r o md Hr Ho Hu Hmd Hc.
    apply inpaint_result_Ok in Hres as [_ Hrange].
    pose proof (Forall3_at3 _ _ _ _ _ _ Hrange Hr) as Hur.
    rewrite (composite_pixel _ _ _ _ _ _ _ _ _ _ _ _ Hcomp Hr Ho Hmd Hc).
    destruct (mask_dilated_values _ _ _ _ (at2_crop _ _ _ _ _ _ Hmd)) as [-> | ->].
    + right. by rewrite blend_0, to_uint8_of_Z.
    + left. by rewrite blend_255, to_uint8_of_Z.
Qed.

(** C10. Padding appends rows below and columns to the right only: the
    padded array restricted to the first [h] rows and [w] columns is the
    original array, so a crop to the recorded [(h, w)] addresses the positions
    of the input. *)
Theorem pad_to_multiple_keeps_original {A} (img padded : list (list A))
    (multiple : Z) (h w : nat) (hw : nat * nat) :
  shape2 img = (h, w) → rectangular w img →
  _pad_to_multiple img multiple = Ok (padded, hw) →
  hw = (h, w) ∧ crop h w padded = img ∧
  ∀ i j, (i < h)%nat → (j < w)%nat → at2 padded i j = at2 img i j.
Proof.
  intros Hshape Hrect. unfold _pad_to_multiple. rewrite Hshape.
  destruct (multiple =? 0); [done|].
  destruct (_ || _); [done|].
  intros (padded' & Hpad & [= <- <-])%bind_Ok.
  assert (length img = h) as <- by (by injection Hshape).
  pose proof (pad_reflect2_crop _ _ _ _ _ Hrect Hpad) as Hcrop.
  split_and!; [done..|].
  intros i j Hi Hj. rewrite <-Hcrop at 1. unfold at2, crop.
  rewrite list_lookup_fmap, lookup_take_lt by done.
  destruct (padded' !! i) as [row|]; [simpl|done].
  by rewrite lookup_take_lt.
Qed.

(** C2, the case that fails.  A payload that is valid base64 but whose bytes
    are no image makes [Image.open] raise [UnidentifiedImageError], a subclass
    of [OSError] and not of [ValueError]: the handler for [ValueError] does
    not take it, and the route answers 500 "Inpainting failed", not 400
    "Invalid image data".  (The other two decoding failures are answered with
    400: [RoutesFacts.inpaint_bad_data_url], [RoutesFacts.inpaint_bad_base64].) *)
Theorem inpaint_unidentified_image_is_500 request w image_bytes msg :
  startswith (routes.image request) "data:" = false →
  b64decode (routes.image request) = Ok image_bytes →
  Image_open image_bytes = Raise (UnidentifiedImageError msg) →
  image_utils.decode_base64_image (routes.image request)
    = Raise (UnidentifiedImageError msg) ∧
  isinstance_ValueError (UnidentifiedImageError msg) = false ∧
  routes.inpaint request w
    = (routes.HTTPException 500 ("Inpainting failed: " +:+ msg), w).
Proof.
  intros Hprefix Hb64 Hopen.
  assert (image_utils.decode_base64_image (routes.image request)
          = Raise (UnidentifiedImageError msg)) as H.
  { unfold image_utils.decode_base64_image. rewrite Hprefix. simpl. by rewrite Hb64. }
  split_and!; [done..|]. by rewrite (inpaint_decode_raises _ _ _ H).
Qed.

End properties.

(* ===================================================================== *)
(** * Examples: the properties at concrete inputs                        *)
(* ===================================================================== *)

Section examples.
Import PyStr inpaint_service Fixtures.
Local Open Scope nat_scope.

(** C1 on the small image: pixel (0, 2) is outside the dilated mask. *)
Lemma composite_keeps_unmasked_pixels_example :
  inpaint 0 small_image small_mask first_world = (Ok small_output, small_run.2) ∧
  at2 (crop (shape2 small_image).1 (shape2 small_image).2
         (mask_dilated (mask_binary small_mask))) 0 2 = Some 0%Z ∧
  at3 small_image 0 2 1 = Some 8%Z ∧
  at3 small_output 0 2 1 = Some 8%Z ∧
  8%Z = 8%Z.
Proof.
  assert (inpaint 0 small_image small_mask first_world
          = (Ok small_output, small_run.2)) as Hrun by (vm_compute; reflexivity).
  assert (at2 (crop (shape2 small_image).1 (shape2 small_image).2
                 (mask_dilated (mask_binary small_mask))) 0 2 = Some 0%Z) as Hmask
    by (vm_compute; reflexivity).
  assert (at3 small_image 0 2 1 = Some 8%Z) as Himage by reflexivity.
  assert (at3 small_output 0 2 1 = Some 8%Z) as Hout by reflexivity.
  split_and!; [done..|].
  apply (composite_keeps_unmasked_pixels 0 small_image small_mask first_world
           small_output small_run.2 0 2 1 8%Z 8%Z Hrun Hmask Himage);
    [unfold uint8; lia | lia | exact Hout].
Defined.

(** C3 on the small image. *)
Lemma composite_is_rounded_blend_example :
  inpaint 0 small_image small_mask first_world = (Ok small_output, small_run.2) ∧
  ∃ m model_output,
    heap small_run.2 !! 0 ≫= model = Some m ∧
    inpaint_result m small_image (mask_dilated (mask_binary small_mask))
      = Ok (model_output, shape2 small_image) ∧
    ∀ i j c r o md,
      at3 model_output i j c = Some r →
      at3 small_image i j c = Some o → uint8 o →
      at2 (crop (shape2 small_image).1 (shape2 small_image).2
             (mask_dilated (mask_binary small_mask))) i j = Some md →
      c < 3 →
      let weight := Float32.div (Float32.of_Z md) (Float32.of_Z 255) in
      at3 small_output i j c
      = Float32.round_half_even
          (Float32.add (Float32.mul (Float32.of_Z r) weight)
             (Float32.mul (Float32.of_Z o) (Float32.sub Float32.one weight))).
Proof.
  assert (inpaint 0 small_image small_mask first_world
          = (Ok small_output, small_run.2)) as Hrun by (vm_compute; reflexivity).
  split; [done|].
  exact (composite_is_rounded_blend 0 small_image small_mask first_world
           small_output small_run.2 Hrun).
Defined.

(** C4 on the small mask: two rows of three become eight rows of eight. *)
Lemma pad_to_multiple_8_dimensions_example :
  shape2 small_mask = (2, 3) ∧ rectangular 3 small_mask ∧
  ∃ padded H W,
    _pad_to_multiple small_mask 8 = Ok (padded, (2, 3)) ∧
    shape2 padded = (H, W) ∧ rectangular W padded ∧
    Z.of_nat H = (8 * ((Z.of_nat 2 + 7) / 8))%Z ∧
    Z.of_nat W = (8 * ((Z.of_nat 3 + 7) / 8))%Z ∧
    2 ≤ H ≤ 2 + 7 ∧ 3 ≤ W ≤ 3 + 7 ∧
    (Z.of_nat H mod 8 = 0)%Z ∧ (Z.of_nat W mod 8 = 0)%Z.
Proof.
  assert (rectangular 3 small_mask) as Hrect by (repeat constructor).
  split_and!; [reflexivity|done|].
  exact (pad_to_multiple_8_dimensions small_mask 2 3 eq_refl Hrect).
Defined.

(** C5 on the stored image of the one-file codec. *)
Lemma decode_encode_png_example :
  Image_save stored_image image_utils.default_format = Ok stored_file ∧
  Image_open stored_file = Ok stored_image ∧
  b64decode (b64encode stored_file) = Ok stored_file ∧
  b64encode stored_file ≠ EmptyString ∧
  all_chars is_base64_char (b64encode stored_file) = true ∧
  ∃ data_url,
    image_utils.encode_image_to_base64 stored_image image_utils.default_format
      = Ok data_url ∧
    image_utils.decode_base64_image data_url = Ok stored_image.
Proof.
  assert (b64encode stored_file ≠ EmptyString) as Hne by (vm_compute; discriminate).
  split_and!; [reflexivity|reflexivity|reflexivity|done|reflexivity|].
  apply (decode_encode_png stored_image stored_file);
    [reflexivity|reflexivity|reflexivity|done|reflexivity].
Defined.

(** The echo network keeps the shape of its input. *)
Lemma echo_keeps_shape (m : Model) : keeps_shape m.
Proof. intros image_tensor mask_tensor h w Himage _ _ _ _ _. by exists image_tensor. Qed.

Lemma echo_hub_available : hub_available.
Proof. intros n. by exists "/cache/big-lama.pt"%string, (). Qed.


(** C8 in the state at import time. *)
Lemma model_acquired_once_and_instance_unique_example :
  reachable initial_world ∧
  ∃ w1, get_inpainter initial_world = (Ok 0, w1) ∧ length (heap w1) = 1 ∧
        get_inpainter w1 = (Ok 0, w1).
Proof.
  split; [constructor|].
  exact (proj1 (model_acquired_once_and_instance_unique initial_world
                  reachable_initial)).
Defined.

(** C9 on the small image. *)
Lemma dilated_mask_is_binary_and_blend_selects_example :
  inpaint 0 small_image small_mask first_world = (Ok small_output, small_run.2) ∧
  ∀ i j md,
    at2 (mask_dilated (mask_binary small_mask)) i j = Some md →
    (md = 0 ∨ md = 255)%Z ∧
    (Float32.div (Float32.of_Z md) (Float32.of_Z 255) = Float32.zero ∨
     Float32.div (Float32.of_Z md) (Float32.of_Z 255) = Float32.one).
Proof.
  assert (inpaint 0 small_image small_mask first_world
          = (Ok small_output, small_run.2)) as Hrun by (vm_compute; reflexivity).
  split; [done|].
  exact (proj1 (dilated_mask_is_binary_and_blend_selects 0 small_image small_mask
                  first_world small_output small_run.2 Hrun)).
Defined.

(** C10 on the small mask. *)
Lemma pad_to_multiple_keeps_original_example :
  shape2 small_mask = (2, 3) ∧ rectangular 3 small_mask ∧
  _pad_to_multiple small_mask 8 = Ok (small_mask_padded, (2, 3)) ∧
  crop 2 3 small_mask_padded = small_mask.
Proof.
  assert (rectangular 3 small_mask) as Hrect by (repeat constructor).
  split_and!; [reflexivity|done|reflexivity|].
  exact (proj1 (proj2 (pad_to_multiple_keeps_original small_mask small_mask_padded
                         8 2 3 (2, 3) eq_refl Hrect eq_refl))).
Defined.

(** C2: the payload [AAAA] is valid base64, its three zero bytes are no
    image, and the route answers 500. *)
Lemma inpaint_unidentified_image_is_500_example :
  startswith "AAAA" "data:" = false ∧
  b64decode "AAAA" = Ok [Byte.x00; Byte.x00; Byte.x00] ∧
  Image_open [Byte.x00; Byte.x00; Byte.x00]
    = Raise (UnidentifiedImageError "cannot identify image file") ∧
  routes.inpaint {| routes.image := "AAAA"; routes.mask := "AAAA" |} initial_world
    = (routes.HTTPException 500 "Inpainting failed: cannot identify image file",
       initial_world).
Proof.
  split_and!; [reflexivity..|].
  exact (proj2 (proj2 (inpaint_unidentified_image_is_500
           {| routes.image := "AAAA"; routes.mask := "AAAA" |} initial_world
           [Byte.x00; Byte.x00; Byte.x00] "cannot identify image file"
           eq_refl eq_refl eq_refl))).
Defined.

End examples.

(* ===================================================================== *)
(** * Part III: further properties of the code                           *)
(* ===================================================================== *)

(** ** Lemmas *)

Module CodecFacts.
Import PyFacts PyStr PyStrFacts.

Lemma strip_prefix_app p s : strip_prefix p (p +:+ s) = Some s.
Proof.
  induction p as [|a p IH]; [done|].
  change (String a p +:+ s) with (String a (p +:+ s)).
  cbn [strip_prefix]. by rewrite Ascii.eqb_refl.
Qed.

Lemma span_app P s tail :
  all_chars P s = true → stops P tail → span P (s +:+ tail) = (s, tail).
Proof.
  intros Hs Htail. induction s as [|a s IH].
  - change (EmptyString +:+ tail) with tail.
    destruct tail as [|c tail]; [done|]. cbn in *. by rewrite Htail.
  - change (String a s +:+ tail) with (String a (s +:+ tail)).
    cbn in *. apply andb_true_iff in Hs as [-> Hs]. by rewrite IH.
Qed.

Lemma startswith_app p s : startswith (p +:+ s) p = true.
Proof.
  unfold startswith. apply bool_decide_eq_true. rewrite strip_prefix_app. by eexists.
Qed.

Lemma match_data_url_app subtype payload tail :
  subtype ≠ EmptyString → all_chars (not_char ";") subtype = true →
  payload ≠ EmptyString → all_chars (not_char newline) payload = true →
  stops (not_char newline) tail →
  match_data_url ("data:image/" +:+ subtype +:+ ";base64," +:+ payload +:+ tail)
  = Some payload.
Proof.
  intros Hsub Hsemi Hpay Hnl Htail. unfold match_data_url.
  rewrite strip_prefix_app. cbn [mbind option_bind].
  fold (not_char ";"). rewrite (span_app _ subtype) by done.
  destruct (decide (subtype = EmptyString)); [done|].
  rewrite strip_prefix_app. cbn [mbind option_bind].
  fold (not_char newline). rewrite (span_app _ payload) by done.
  by destruct (decide (payload = EmptyString)).
Qed.

End CodecFacts.

Module PadFacts.
Import PyFacts NumpyFacts ShapeFacts ServiceFacts inpaint_service.

Lemma pad_amount (multiple : Z) (n : nat) :
  0 < multiple →
  let pad := (multiple - Z.of_nat n mod multiple) mod multiple in
  0 ≤ pad < multiple ∧ (Z.of_nat n + pad) mod multiple = 0.
Proof.
  intros Hm. cbv zeta.
  pose proof (Z.mod_pos_bound (Z.of_nat n) multiple Hm) as Hr.
  set (r := Z.of_nat n mod multiple) in *.
  split; [by apply Z.mod_pos_bound|].
  destruct (decide (r = 0)) as [E|E].
  - rewrite E, Z.sub_0_r, Z.mod_same, Z.add_0_r by lia. done.
  - rewrite (Z.mod_small (multiple - r)) by lia.
    rewrite (Z.div_mod (Z.of_nat n) multiple) by lia. fold r.
    replace (multiple * (Z.of_nat n / multiple) + r + (multiple - r))
      with ((Z.of_nat n / multiple + 1) * multiple) by lia.
    apply Z.mod_mul. lia.
Qed.

Lemma traverse_pad_0 {A} (rows : list (list A)) :
  traverse (λ row, pad_reflect_after row 0) rows = Ok rows.
Proof.
  induction rows as [|row rows IH]; [done|]. cbn [traverse].
  replace (pad_reflect_after row 0) with (Ok row) by (by destruct row).
  bind_step. rewrite IH. by bind_step.
Qed.

(** An array whose sides are multiples of [multiple] is returned as it is. *)
Lemma _pad_to_multiple_aligned {A} (img : list (list A)) multiple :
  multiple ≠ 0 →
  Z.of_nat (shape2 img).1 mod multiple = 0 →
  Z.of_nat (shape2 img).2 mod multiple = 0 →
  _pad_to_multiple img multiple = Ok (img, shape2 img).
Proof.
  intros Hm Hh Hw. unfold _pad_to_multiple.
  destruct (shape2 img) as [h w]. cbn [fst snd] in *.
  rewrite (proj2 (Z.eqb_neq multiple 0)) by done.
  rewrite Hh, Hw, Z.sub_0_r, Z.mod_same by done.
  change (0 <? 0) with false. cbn [orb]. change (Z.to_nat 0) with 0%nat.
  unfold pad_reflect2.
  replace (pad_reflect_after img 0) with (Ok img) by (by destruct img).
  bind_step. rewrite traverse_pad_0. by bind_step.
Qed.

Lemma _pad_to_multiple_spec {A} (img : list (list A)) (multiple : Z) (h w : nat) :
  0 < multiple → shape2 img = (h, w) → rectangular w img →
  ∃ padded H W,
    _pad_to_multiple img multiple = Ok (padded, (h, w)) ∧
    shape2 padded = (H, W) ∧ rectangular W padded ∧
    Z.of_nat H mod multiple = 0 ∧ Z.of_nat W mod multiple = 0 ∧
    Z.of_nat h ≤ Z.of_nat H < Z.of_nat h + multiple ∧
    Z.of_nat w ≤ Z.of_nat W < Z.of_nat w + multiple.
Proof.
  intros Hm Hshape Hrect. unfold _pad_to_multiple. rewrite Hshape.
  rewrite (proj2 (Z.eqb_neq multiple 0)) by lia.
  destruct (pad_amount multiple h Hm) as (Hh1 & Hh2).
  destruct (pad_amount multiple w Hm) as (Hw1 & Hw2).
  set (pad_h := (multiple - Z.of_nat h mod multiple) mod multiple) in *.
  set (pad_w := (multiple - Z.of_nat w mod multiple) mod multiple) in *.
  replace ((pad_h <? 0) || (pad_w <? 0)) with false
    by (symmetry; apply orb_false_iff; split; apply Z.ltb_ge; lia).
  assert (length img = h) as Hlen by (by injection Hshape).
  assert (h = 0%nat → pad_h = 0) as Hh0.
  { intros ->. unfold pad_h. rewrite Z.mod_0_l, Z.sub_0_r, Z.mod_same; lia. }
  assert (w = 0%nat → pad_w = 0) as Hw0.
  { intros ->. unfold pad_w. rewrite Z.mod_0_l, Z.sub_0_r, Z.mod_same; lia. }
  destruct (pad_reflect2_is_Ok img (Z.to_nat pad_h) (Z.to_nat pad_w) w Hrect)
    as [padded Hpad].
  { destruct img; [left|by right]. simpl in Hlen. rewrite Hh0; [done|lia]. }
  { destruct (decide (w = 0%nat)) as [E|]; [left|by right]. by rewrite Hw0. }
  rewrite Hpad. bind_step.
  destruct (pad_reflect2_shape _ _ _ _ _ Hrect Hpad) as [Hlen' Hrect'].
  exists padded, (h + Z.to_nat pad_h)%nat, (w + Z.to_nat pad_w)%nat.
  rewrite !Nat2Z.inj_add, !Z2Nat.id by lia.
  split_and!; try done; try lia.
  destruct (decide (padded = [])) as [->|Hne].
  - simpl in Hlen'. assert (h = 0%nat) as -> by lia.
    assert (img = []) as -> by (by destruct img).
    injection Hshape as <-. rewrite Hh0, Hw0 by done. done.
  - rewrite (shape2_of_rectangular _ _ Hrect' Hne). by rewrite Hlen', Hlen.
Qed.

(** The elements that reflection appends mirror the axis on its last
    element, which is not repeated. *)
Lemma pad_reflect_after_mirror {A} (l l' : list A) after k :
  pad_reflect_after l after = Ok l' →
  (k < after)%nat → (k + 2 ≤ length l)%nat →
  l' !! (length l + k)%nat = l !! (length l - 2 - k)%nat.
Proof.
  unfold pad_reflect_after. intros H Hk Hlen.
  destruct after as [|n]; [lia|].
  destruct l as [|x0 [|x1 l]]; [simpl in Hlen; lia|simpl in Hlen; lia|].
  set (l0 := x0 :: x1 :: l) in *.
  assert (l' = l0 ++ ((λ k, nth (reflect_index (length l0) (length l0 + k)) l0 x0)
                        <$> seq 0 (S n))) as -> by congruence.
  rewrite lookup_app_r by lia.
  replace (length l0 + k - length l0)%nat with k by lia.
  rewrite list_lookup_fmap, lookup_seq_lt by done. cbn [fmap option_fmap option_map plus].
  assert (reflect_index (length l0) (length l0 + k) = (length l0 - 2 - k)%nat) as ->.
  { unfold reflect_index. cbv zeta.
    destruct (decide (k + 2 = length l0)%nat) as [E|E].
    - replace (length l0 + k)%nat with (2 * (length l0 - 1))%nat by lia.
      rewrite Nat.Div0.mod_same.
      rewrite (proj2 (Nat.ltb_lt 0 (length l0))) by lia. lia.
    - rewrite Nat.mod_small by lia.
      rewrite (proj2 (Nat.ltb_ge (length l0 + k) (length l0))) by lia. lia. }
  destruct (lookup_lt_is_Some_2 l0 (length l0 - 2 - k)%nat) as [x Hx]; [lia|].
  rewrite Hx. f_equal. by apply nth_lookup_Some.
Qed.

End PadFacts.

Module DilationFacts.
Import PyFacts NumpyFacts ShapeFacts ServiceFacts inpaint_service Scipy.
Local Open Scope nat_scope.

Lemma bit_true a i j :
  bit a i j = true ↔ ∃ row, a !! i = Some row ∧ row !! j = Some true.
Proof.
  unfold bit. split.
  - destruct (at2 a i j) as [[]|] eqn:H; [|done..]. intros _. by apply at2_Some.
  - intros H%at2_Some. by rewrite H.
Qed.

Lemma bit_in_bounds a w i j :
  rectangular w a → bit a i j = true → i < length a ∧ j < w.
Proof.
  intros Hrect (row & Hrow & Hj)%bit_true.
  unfold rectangular in Hrect. rewrite Forall_lookup in Hrect.
  split; [by eapply lookup_lt_Some|].
  rewrite <-(Hrect _ _ Hrow). by eapply lookup_lt_Some.
Qed.

Lemma bit_dilate a w i j :
  rectangular w a →
  bit (dilate a) i j = true ↔
  i < length a ∧ j < w ∧ ∃ i' j', bit a i' j' = true ∧ near 1 i j i' j'.
Proof.
  intros Hrect. pose proof Hrect as Hrect'.
  unfold rectangular in Hrect'. rewrite Forall_lookup in Hrect'.
  unfold near. rewrite bit_true. unfold dilate. split.
  - intros (row' & Hrow' & Hj).
    rewrite list_lookup_imap in Hrow'.
    destruct (a !! i) as [row|] eqn:Hrow; [|done]. injection Hrow' as <-.
    rewrite list_lookup_imap in Hj.
    destruct (row !! j) as [centre|] eqn:Hcentre; [|done]. injection Hj as Hj.
    split; [by eapply lookup_lt_Some|].
    split; [rewrite <-(Hrect' _ _ Hrow); by eapply lookup_lt_Some|].
    repeat apply orb_true_iff in Hj as [Hj|Hj].
    + exists i, j. split; [|lia]. apply bit_true. exists row. by rewrite Hcentre, Hj.
    + destruct i as [|i']; [done|]. exists i', j. split; [done|lia].
    + exists (S i), j. split; [done|lia].
    + destruct j as [|j']; [done|]. exists i, j'. split; [done|lia].
    + exists i, (S j). split; [done|lia].
  - intros (Hi & Hj & i' & j' & Hbit & Hnear).
    destruct (lookup_lt_is_Some_2 a i Hi) as [row Hrow].
    destruct (lookup_lt_is_Some_2 row j) as [centre Hcentre];
      [by rewrite (Hrect' _ _ Hrow)|].
    eexists. rewrite list_lookup_imap, Hrow. split; [done|].
    rewrite list_lookup_imap, Hcentre. cbn [fmap option_fmap option_map]. f_equal.
    assert ((i' = i ∧ j' = j) ∨ (i = S i' ∧ j' = j) ∨ (i' = S i ∧ j' = j) ∨
            (i' = i ∧ j = S j') ∨ (i' = i ∧ j' = S j)) as Hcases by lia.
    destruct Hcases as [[-> ->]|[[-> ->]|[[-> ->]|[[-> ->]|[-> ->]]]]].
    + apply bit_true in Hbit as (row0 & Hrow0 & Hc).
      assert (centre = true) as -> by congruence. done.
    + rewrite Hbit. by rewrite !orb_true_r.
    + rewrite Hbit. by rewrite !orb_true_r.
    + rewrite Hbit. by rewrite !orb_true_r.
    + rewrite Hbit. by rewrite !orb_true_r.
Qed.

Lemma dilate_rectangular a w : rectangular w a → rectangular w (dilate a).
Proof. intros H. by apply (dilate_shape a (length a) w). Qed.

Lemma bit_binary_dilation_2 a w i j :
  rectangular w a →
  bit (binary_dilation a 2) i j = true ↔
  i < length a ∧ j < w ∧ ∃ i' j', bit a i' j' = true ∧ near 2 i j i' j'.
Proof.
  intros Hrect. change (binary_dilation a 2) with (dilate (dilate a)).
  rewrite (bit_dilate _ w) by by apply dilate_rectangular.
  assert (length (dilate a) = length a) as -> by apply length_imap.
  split.
  - intros (Hi & Hj & i1 & j1 & Hbit & Hnear).
    apply (bit_dilate _ w) in Hbit as (_ & _ & i2 & j2 & Hbit & Hnear'); [|done].
    split_and!; [done..|]. exists i2, j2. split; [done|]. unfold near in *. lia.
  - intros (Hi & Hj & i2 & j2 & Hbit & Hnear).
    destruct (bit_in_bounds _ _ _ _ Hrect Hbit) as [Hi2 Hj2].
    split_and!; [done..|].
    assert (∃ i1 j1, i1 < length a ∧ j1 < w ∧
                     near 1 i j i1 j1 ∧ near 1 i1 j1 i2 j2) as (i1 & j1 & ? & ? & ? & ?).
    { unfold near in *.
      destruct (decide (i < i2)); [exists (S i), j; lia|].
      destruct (decide (i2 < i)); [exists (i - 1), j; lia|].
      destruct (decide (j < j2)); [exists i, (S j); lia|].
      destruct (decide (j2 < j)); [exists i, (j - 1); lia|].
      exists i, j. lia. }
    exists i1, j1. split; [|done].
    apply (bit_dilate _ w); [done|]. split_and!; [done..|]. by exists i2, j2.
Qed.

Lemma bit_marked (mask : list (list Z)) i j :
  bit (map2 (λ v, (0 <? v)%Z) (mask_binary mask)) i j = true ↔
  ∃ m, at2 mask i j = Some m ∧ (127 < m)%Z.
Proof.
  unfold bit, mask_binary. rewrite !at2_map2.
  destruct (at2 mask i j) as [m|]; cbn [fmap option_fmap option_map default].
  - destruct (127 <? m)%Z eqn:E.
    + apply Z.ltb_lt in E. split; [by exists m|done].
    + apply Z.ltb_ge in E. split; [done|]. intros (m' & [= <-] & ?). lia.
  - split; [done|]. by intros (m' & ? & _).
Qed.

Lemma mask_dilated_spec (mask : list (list Z)) w i j :
  rectangular w mask → i < length mask → j < w →
  ∃ v, at2 (mask_dilated (mask_binary mask)) i j = Some v ∧
       (v = 0 ∨ v = 255)%Z ∧
       (v = 255%Z ↔
        ∃ i' j' m, at2 mask i' j' = Some m ∧ (127 < m)%Z ∧ near 2 i j i' j').
Proof.
  intros Hrect Hi Hj.
  set (marked := map2 (λ v, (0 <? v)%Z) (mask_binary mask)).
  assert (has_shape2 (length mask) w marked) as [Hlen Hmarked]
    by (by apply has_shape2_map2, has_shape2_map2).
  destruct (has_shape2_lookup (binary_dilation marked 2) (length mask) w i j)
    as [b Hb]; [by apply binary_dilation_shape|done..|].
  pose proof (bit_binary_dilation_2 marked w i j Hmarked) as Hbit.
  unfold bit in Hbit. rewrite Hb, Hlen in Hbit. cbn [default] in Hbit.
  unfold mask_dilated. fold marked. rewrite at2_map2, Hb.
  eexists. split; [done|]. split; [by destruct b; auto|].
  destruct b; cbn.
  - split; [intros _|done].
    destruct (proj1 Hbit eq_refl) as (_ & _ & i' & j' & (m & Hm & Hgt)%bit_marked & Hnear).
    by exists i', j', m.
  - split; [done|]. intros (i' & j' & m & Hm & Hgt & Hnear).
    enough (false = true) by done. apply Hbit. split_and!; [done..|].
    exists i', j'. split; [|done]. apply bit_marked. by exists m.
Qed.

End DilationFacts.

Module MoreServiceFacts.
Import PyFacts NumpyFacts BroadcastFacts Float32Facts ShapeFacts ServiceFacts.
Import inpaint_service DilationFacts.
Local Open Scope nat_scope.

(** Two arrays of one shape with the same elements are equal. *)
Lemma has_shape3_ext {A} (a b : list (list (list A))) h w c :
  has_shape3 h w c a → has_shape3 h w c b →
  (∀ i j k x, at3 a i j k = Some x → at3 b i j k = Some x) →
  a = b.
Proof.
  intros [[Ha Hra] Hca] [[Hb Hrb] Hcb] Hext.
  unfold rectangular in *.
  rewrite Forall_lookup in Hra. rewrite Forall_lookup in Hrb.
  rewrite Forall_lookup in Hca. rewrite Forall_lookup in Hcb.
  apply (list_eq_same_length _ _ h); [done..|].
  intros i arow brow Hi Harow Hbrow.
  apply (list_eq_same_length _ _ w); [by eapply Hrb|by eapply Hra|].
  intros j apx bpx Hj Hapx Hbpx.
  pose proof (Hca _ _ Harow) as Hac. pose proof (Hcb _ _ Hbrow) as Hbc.
  rewrite Forall_lookup in Hac. rewrite Forall_lookup in Hbc.
  apply (list_eq_same_length _ _ c); [by eapply Hbc|by eapply Hac|].
  intros k x y Hk Hx Hy.
  assert (at3 b i j k = Some x) as Hbx.
  { apply Hext, at3_Some. by exists arow, apx. }
  apply at3_Some in Hbx as (brow' & bpx' & ? & ? & ?). congruence.
Qed.

Lemma has_shape3_lookup {A} (a : list (list (list A))) h w c i j k :
  has_shape3 h w c a → i < h → j < w → k < c → is_Some (at3 a i j k).
Proof.
  intros [H2 Hc] Hi Hj Hk.
  destruct (has_shape2_lookup a h w i j H2 Hi Hj) as [px Hpx].
  unfold at3. rewrite Hpx. cbn [mbind option_bind].
  apply at2_Some in Hpx as (row & Hrow & Hpx).
  rewrite Forall_lookup in Hc. specialize (Hc _ _ Hrow).
  rewrite Forall_lookup in Hc. apply lookup_lt_is_Some_2.
  by rewrite (Hc _ _ Hpx).
Qed.

Lemma at3_bounds {A} (a : list (list (list A))) h w c i j k x :
  has_shape3 h w c a → at3 a i j k = Some x → i < h ∧ j < w ∧ k < c.
Proof.
  intros [[Hlen Hrect] Hc] (row & px & Hrow & Hpx & Hx)%at3_Some.
  unfold rectangular in Hrect. rewrite Forall_lookup in Hrect.
  rewrite Forall_lookup in Hc. specialize (Hc _ _ Hrow).
  rewrite Forall_lookup in Hc.
  split_and!.
  - rewrite <-Hlen. by eapply lookup_lt_Some.
  - rewrite <-(Hrect _ _ Hrow). by eapply lookup_lt_Some.
  - rewrite <-(Hc _ _ Hpx). by eapply lookup_lt_Some.
Qed.

Section with_hub.
Context `{hub : !Hub}.

(** With nothing marked, the composite is the image. *)
Lemma inpaint_with_unmarked m image mask h w :
  has_shape3 h w 3 image → Forall3 uint8 image → has_shape2 h w mask →
  (∀ i j v, at2 mask i j = Some v → (v ≤ 127)%Z) →
  0 < h → 0 < w → keeps_shape m →
  inpaint_with m image mask = Ok image.
Proof.
  intros Himg Hu8 Hmask Hdark Hh Hw Hkeeps.
  destruct (inpaint_with_shape m image mask h w Himg Hmask Hh Hw Hkeeps)
    as (out & Hout & Hshape).
  rewrite Hout. f_equal. apply (has_shape3_ext _ _ h w 3); [done..|].
  intros i j c v Hv.
  destruct (at3_bounds _ _ _ _ _ _ _ _ Hshape Hv) as (Hi & Hj & Hc).
  destruct (has_shape3_lookup image h w 3 i j c Himg Hi Hj Hc) as [o Ho].
  rewrite Ho. f_equal.
  apply inpaint_with_Ok in Hout as (result & Hres & Hcomp).
  apply inpaint_result_Ok in Hres as [_ Hrange].
  rewrite (has_shape2_shape2 _ _ _ (proj1 Himg) Hh) in Hcomp. cbn [fst snd] in Hcomp.
  destruct Hmask as [Hlen Hrect].
  destruct (mask_dilated_spec mask w i j Hrect) as (md & Hmd & _ & Hiff);
    [lia|done|].
  assert (md = 0%Z) as ->.
  { destruct (mask_dilated_values _ _ _ _ Hmd) as [->| ->]; [done|].
    destruct (proj1 Hiff eq_refl) as (i' & j' & v' & Hv' & Hgt & _).
    specialize (Hdark _ _ _ Hv'). lia. }
  assert (at2 (crop h w (mask_dilated (mask_binary mask))) i j = Some 0%Z) as Hcrop.
  { rewrite crop_same_shape; [done|]. apply mask_dilated_shape. by split. }
  destruct (composite_pixel_any _ _ _ _ _ _ _ _ _ _ _ _ _ Hcomp Hrange Ho Hcrop Hc Hv)
    as (r & Hr & ->).
  assert (uint8 o) as Huo by (by apply (Forall3_at3 uint8 image i j c)).
  by rewrite blend_0, to_uint8_of_Z.
Qed.


(** With the handle set, [inpaint] is its body and changes no state. *)
Lemma inpaint_loaded self image mask w o m :
  heap w !! self = Some o → model o = Some m →
  inpaint self image mask w = (inpaint_with m image mask, w).
Proof.
  intros Hself Hm. unfold inpaint, seq_bind, _load_model.
  rewrite Hself, Hm. cbn [mbind option_bind]. by rewrite Hself; cbn; rewrite Hm.
Qed.

End with_hub.

Section with_codec.
Context `{hub : !Hub, codec : !Codec}.

(** What [inpaint_image] returns is built by [numpy_to_image] from what
    [inpaint] returns on the instance of [get_inpainter]. *)
Lemma inpaint_image_Ok image mask w result w' :
  inpaint_image image mask w = (Ok result, w') →
  ∃ self w1 image_np mask_np result_np,
    get_inpainter w = (Ok self, w1) ∧
    image_utils.image_to_numpy image = Ok image_np ∧
    inpaint self image_np mask_np w1 = (Ok result_np, w') ∧
    result = image_utils.numpy_to_image result_np.
Proof.
  unfold inpaint_image, seq_bind, lift, ret.
  destruct (get_inpainter w) as [[self|e] w1]; [|done].
  destruct (image_utils.image_to_numpy image) as [image_np|e]; [|done].
  destruct (image_utils.mask_to_numpy mask) as [mask_np|e]; [|done].
  match goal with
  | |- context [if ?c then ?a else ?b] => destruct (if c then a else b) as [mask_np'|e]
  end; [|done].
  destruct (inpaint self image_np mask_np' w1) as [[result_np|e] w2] eqn:Hrun; [|done].
  intros [= <- <-]. by exists self, w1, image_np, mask_np', result_np.
Qed.

End with_codec.
End MoreServiceFacts.

Module MismatchFacts.
Import PyFacts NumpyFacts BroadcastFacts ShapeFacts ServiceFacts inpaint_service.
Local Open Scope nat_scope.

Lemma broadcast_mismatch {A B C} err (f : A → B → result C) xs ys :
  length xs ≠ length ys → 2 ≤ length xs → 2 ≤ length ys →
  broadcast err f xs ys = Raise err.
Proof.
  intros Hne Hx Hy. unfold broadcast. case_decide; [done|].
  destruct xs as [|x0 [|x1 xs]], ys as [|y0 [|y1 ys]]; simpl in *; try lia; done.
Qed.

Lemma broadcast2_mismatch {A B C} err (f : A → B → result C) a b H W Hm Wm :
  has_shape2 H W a → has_shape2 Hm Wm b →
  2 ≤ H → 2 ≤ W → 2 ≤ Hm → 2 ≤ Wm → H ≠ Hm ∨ W ≠ Wm →
  broadcast err (broadcast err f) a b = Raise err.
Proof.
  intros [Ha Hra] [Hb Hrb] HH HW HHm HWm Hne.
  destruct (decide (H = Hm)) as [<-|E].
  - destruct Hne as [?|Hne]; [done|].
    rewrite broadcast_same_length by congruence.
    destruct a as [|r0 a]; [simpl in Ha; lia|].
    destruct b as [|s0 b]; [simpl in Hb; lia|].
    apply Forall_cons in Hra as [Hr0 _]. apply Forall_cons in Hrb as [Hs0 _].
    cbn [zip zip_with traverse fst snd].
    rewrite (broadcast_mismatch err f r0 s0) by lia. done.
  - apply broadcast_mismatch; lia.
Qed.

Lemma mul4_mismatch (image_planes : tensor3) (mask_plane : tensor2) H W Hm Wm :
  length image_planes = 3 → Forall (has_shape2 H W) image_planes →
  has_shape2 Hm Wm mask_plane →
  2 ≤ H → 2 ≤ W → 2 ≤ Hm → 2 ≤ Wm → H ≠ Hm ∨ W ≠ Wm →
  mul4 [image_planes] [[mask_plane]] = Raise size_mismatch.
Proof.
  intros Hlen Himg Hmask HH HW HHm HWm Hne. unfold mul4.
  rewrite (broadcast_same_length _ _ [image_planes] [[mask_plane]]) by done.
  cbn [zip zip_with traverse fst snd].
  set (g := broadcast size_mismatch
              (broadcast size_mismatch (λ x y, Ok (Float32.mul x y)))).
  assert (broadcast size_mismatch g image_planes [mask_plane] = Raise size_mismatch)
    as ->; [|done].
  unfold tensor3, tensor2 in *.
  destruct image_planes as [|p0 [|p1 [|p2 [|]]]]; try (simpl in Hlen; lia).
  apply Forall_cons in Himg as [Hp0 _].
  unfold broadcast at 1. case_decide as Hl; [simpl in Hl; lia|].
  cbn [traverse].
  replace (g p0 mask_plane) with (@Raise tensor2 size_mismatch); [done|].
  symmetry. by apply (broadcast2_mismatch _ _ p0 mask_plane H W Hm Wm).
Qed.

Lemma padded_size_ge_8 n : 0 < n → 8 ≤ padded_size n.
Proof. intros Hn. unfold padded_size. Z.div_mod_to_equations. lia. Qed.

End MismatchFacts.

(** ** Properties *)

Section further_properties.
Import PyFacts NumpyFacts BroadcastFacts Float32Facts ShapeFacts ServiceFacts.
Import PyStr PyStrFacts RoutesFacts inpaint_service.
Import Scipy CodecFacts PadFacts DilationFacts MoreServiceFacts MismatchFacts.
Context `{hub : !Hub, codec : !Codec, base64 : !Base64}.

(** X1. Of a data URI [data:image/<subtype>;base64,<payload>] the decoder
    reads the payload only: the subtype may be any non-empty text without a
    semicolon and is compared with nothing, and what follows the first
    newline after the payload is ignored. *)
Theorem decode_data_url_reads_payload subtype payload tail :
  subtype ≠ EmptyString → all_chars (not_char ";") subtype = true →
  payload ≠ EmptyString → all_chars (not_char newline) payload = true →
  stops (not_char newline) tail →
  image_utils.decode_base64_image
    ("data:image/" +:+ subtype +:+ ";base64," +:+ payload +:+ tail)
  = (image_bytes ← b64decode payload; Image_open image_bytes).
Proof.
  intros Hsub Hsemi Hpay Hnl Htail. unfold image_utils.decode_base64_image.
  replace (startswith _ "data:") with true
    by (symmetry; apply (startswith_app "data:")).
  by rewrite match_data_url_app.
Qed.

(** X2. A string that starts with [data:] and that the pattern rejects (no
    [image/] after it, an empty subtype, no [;base64,] after the subtype, or
    an empty payload) raises [ValueError "Invalid data URL format"]; base64
    and PIL are not consulted. *)
Theorem decode_rejects_malformed_data_url s :
  (startswith s "data:" = true ∧ strip_prefix "data:image/" s = None) ∨
  (∃ rest, s = "data:image/;" +:+ rest) ∨
  (∃ subtype rest, s = "data:image/" +:+ subtype +:+ rest ∧
     all_chars (not_char ";") subtype = true ∧
     stops (not_char ";") rest ∧ strip_prefix ";base64," rest = None) ∨
  (∃ subtype tail, s = "data:image/" +:+ subtype +:+ ";base64," +:+ tail ∧
     all_chars (not_char ";") subtype = true ∧ stops (not_char newline) tail) →
  image_utils.decode_base64_image s = Raise (ValueError "Invalid data URL format").
Proof.
  intros H. unfold image_utils.decode_base64_image.
  assert (startswith s "data:" = true ∧ match_data_url s = None) as [-> ->]; [|done].
  destruct H as [[Hstart Himage]|[(rest & ->)|[(subtype & rest & -> & Hsemi & Hrest & Hb64)
                                            |(subtype & tail & -> & Hsemi & Htail)]]].
  - split; [done|]. unfold match_data_url. by rewrite Himage.
  - change ("data:image/;" +:+ rest) with ("data:image/" +:+ String ";" rest).
    split; [apply (startswith_app "data:")|]. unfold match_data_url.
    by rewrite strip_prefix_app.
  - split; [apply (startswith_app "data:")|]. unfold match_data_url.
    rewrite strip_prefix_app. cbn [mbind option_bind].
    fold (not_char ";"). rewrite (span_app _ subtype) by done.
    destruct (decide (subtype = EmptyString)); [done|]. by rewrite Hb64.
  - split; [apply (startswith_app "data:")|]. unfold match_data_url.
    rewrite strip_prefix_app. cbn [mbind option_bind].
    fold (not_char ";"). rewrite (span_app _ subtype) by done.
    destruct (decide (subtype = EmptyString)); [done|].
    rewrite strip_prefix_app. cbn [mbind option_bind].
    fold (not_char newline).
    rewrite (span_app _ EmptyString tail) by done. done.
Qed.

(** X3. For every format that PIL saves, the data URI of
    [encode_image_to_base64] carries the lower-cased format as MIME subtype,
    and [decode_base64_image] hands exactly the payload back to base64 and
    PIL. *)
Theorem decode_encode_any_format (img : Image) (format : string) buffer :
  Image_save img format = Ok buffer →
  lower format ≠ EmptyString → all_chars (not_char ";") (lower format) = true →
  b64encode buffer ≠ EmptyString →
  all_chars (not_char newline) (b64encode buffer) = true →
  ∃ data_url,
    image_utils.encode_image_to_base64 img format = Ok data_url ∧
    data_url = "data:image/" +:+ lower format +:+ ";base64," +:+ b64encode buffer ∧
    image_utils.decode_base64_image data_url
    = (image_bytes ← b64decode (b64encode buffer); Image_open image_bytes).
Proof.
  intros Hsave Hfmt Hsemi Hne Hnl.
  exists ("data:image/" +:+ lower format +:+ ";base64," +:+ b64encode buffer).
  split_and!.
  - unfold image_utils.encode_image_to_base64. rewrite Hsave. reflexivity.
  - reflexivity.
  - unfold image_utils.decode_base64_image.
    replace (startswith _ "data:") with true
      by (symmetry; apply (startswith_app "data:")).
    assert (b64encode buffer = b64encode buffer +:+ EmptyString) as Hnil.
    { generalize (b64encode buffer). intros t.
      induction t as [|a t IH]; [done|].
      change (String a t +:+ EmptyString) with (String a (t +:+ EmptyString)).
      by rewrite <-IH. }
    rewrite Hnil at 1. by rewrite match_data_url_app.
Qed.

(** X4. When the image does not decode, or the image decodes and the mask
    does not, the route answers from the class of the exception (400 for a
    [ValueError], else 500) and the state of the process is untouched: no
    instance is created and nothing is fetched. *)
Theorem inpaint_decode_failure_leaves_state request w e :
  image_utils.decode_base64_image (routes.image request) = Raise e ∨
  (is_Ok (image_utils.decode_base64_image (routes.image request)) ∧
   image_utils.decode_base64_image (routes.mask request) = Raise e) →
  routes.inpaint request w =
    (if isinstance_ValueError e then
       routes.HTTPException 400 ("Invalid image data: " +:+ str e)
     else routes.HTTPException 500 ("Inpainting failed: " +:+ str e), w).
Proof.
  intros [H|[[image Himage] Hmask]].
  - by apply inpaint_decode_raises.
  - unfold routes.inpaint, routes.inpaint_try, seq_bind, lift.
    rewrite Himage, Hmask. by destruct (isinstance_ValueError e).
Qed.

(** X5. A response of the route is a PNG data URI: the base64 of the PNG
    file of an RGB image, behind [data:image/png;base64,]; and the network
    handle is set afterwards. *)
Theorem inpaint_success_is_png_data_url request w response w' :
  routes.inpaint request w = (routes.InpaintResponse response, w') →
  ∃ result buffer self m,
    mode result = "RGB" ∧
    Image_save result "PNG" = Ok buffer ∧
    response = "data:image/png;base64," +:+ b64encode buffer ∧
    heap w' !! self ≫= model = Some m.
Proof.
  unfold routes.inpaint, routes.inpaint_try, seq_bind, lift, ret.
  destruct (image_utils.decode_base64_image (routes.image request))
    as [image|e]; [|by destruct (isinstance_ValueError e)].
  destruct (image_utils.decode_base64_image (routes.mask request))
    as [mask|e]; [|by destruct (isinstance_ValueError e)].
  destruct (inpaint_image image mask w) as [[result|e] w1] eqn:Hrun;
    [|by destruct (isinstance_ValueError e)].
  destruct (image_utils.encode_image_to_base64 result image_utils.default_format)
    as [url|e] eqn:Hurl; [|by destruct (isinstance_ValueError e)].
  intros [= <- <-].
  apply inpaint_image_Ok in Hrun
    as (self & w0 & image_np & mask_np & result_np & _ & _ & Hinpaint & ->).
  apply inpaint_Ok in Hinpaint as (m & Hm & _).
  unfold image_utils.encode_image_to_base64 in Hurl.
  apply bind_Ok in Hurl as (buffer & Hsave & [= <-]).
  by exists (image_utils.numpy_to_image result_np), buffer, self, m.
Qed.

(** X6. For every positive [multiple], [_pad_to_multiple] returns, the
    padded sides are multiples of it, and each is less than [multiple] larger
    than the original. *)
Theorem pad_to_multiple_any_multiple {A} (img : list (list A)) (multiple : Z) (h w : nat) :
  0 < multiple → shape2 img = (h, w) → rectangular w img →
  ∃ padded H W,
    _pad_to_multiple img multiple = Ok (padded, (h, w)) ∧
    shape2 padded = (H, W) ∧ rectangular W padded ∧
    Z.of_nat H mod multiple = 0 ∧ Z.of_nat W mod multiple = 0 ∧
    Z.of_nat h ≤ Z.of_nat H < Z.of_nat h + multiple ∧
    Z.of_nat w ≤ Z.of_nat W < Z.of_nat w + multiple.
Proof. apply _pad_to_multiple_spec. Qed.

(** X7. An array whose sides are multiples of [multiple] is returned as it
    is. *)
Theorem pad_to_multiple_aligned_unchanged {A} (img : list (list A)) (multiple : Z) :
  multiple ≠ 0 →
  Z.of_nat (shape2 img).1 mod multiple = 0 →
  Z.of_nat (shape2 img).2 mod multiple = 0 →
  _pad_to_multiple img multiple = Ok (img, shape2 img).
Proof. apply _pad_to_multiple_aligned. Qed.

(** X8. Padding is idempotent: padding a padded array returns it
    unchanged. *)
Theorem pad_to_multiple_idempotent {A} (img padded : list (list A)) (multiple : Z) hw :
  0 < multiple → rectangular (shape2 img).2 img →
  _pad_to_multiple img multiple = Ok (padded, hw) →
  _pad_to_multiple padded multiple = Ok (padded, shape2 padded).
Proof.
  intros Hm Hrect Hpad.
  destruct (shape2 img) as [h w] eqn:Hshape. cbn [snd] in Hrect.
  destruct (_pad_to_multiple_spec img multiple h w Hm Hshape Hrect)
    as (padded' & H & W & Hpad' & Hshape' & _ & HH & HW & _).
  assert (padded' = padded) as -> by congruence.
  apply _pad_to_multiple_aligned; [lia|by rewrite Hshape'..].
Qed.

(** X9. Padding introduces no value: every element of the padded array is
    an element of the original array. *)
Theorem pad_to_multiple_no_new_values {A} (img padded : list (list A)) multiple hw i j x :
  _pad_to_multiple img multiple = Ok (padded, hw) →
  at2 padded i j = Some x →
  ∃ i' j', at2 img i' j' = Some x.
Proof.
  intros Hpad Hx.
  assert (Forall (Forall (λ x, ∃ i' j', at2 img i' j' = Some x)) img) as Himg.
  { apply Forall_lookup. intros i' row Hrow.
    apply Forall_lookup. intros j' y Hy.
    exists i', j'. apply at2_Some. eauto. }
  pose proof (_pad_to_multiple_Forall _ _ _ _ _ Hpad Himg) as Hpadded.
  apply at2_Some in Hx as (row & Hrow & Hx).
  rewrite Forall_lookup in Hpadded. specialize (Hpadded _ _ Hrow).
  rewrite Forall_lookup in Hpadded. eauto.
Qed.

(** X10. The padding mirrors the array on its last row and last column,
    which are not repeated: row [h + k] is row [h - 2 - k] and column [w + k]
    is column [w - 2 - k], as far as the array reaches. *)
Theorem pad_to_multiple_mirrors {A} (img padded : list (list A)) multiple (h w : nat) hw :
  shape2 img = (h, w) → rectangular w img →
  _pad_to_multiple img multiple = Ok (padded, hw) →
  (∀ k j, (h + k < length padded)%nat → (k + 2 ≤ h)%nat → (j < w)%nat →
     at2 padded (h + k) j = at2 img (h - 2 - k) j) ∧
  (∀ i k row, (i < h)%nat → padded !! i = Some row →
     (w + k < length row)%nat → (k + 2 ≤ w)%nat →
     at2 padded i (w + k) = at2 img i (w - 2 - k)).
Proof.
  intros Hshape Hrect. unfold _pad_to_multiple. rewrite Hshape.
  destruct (multiple =? 0); [done|]. destruct (_ || _); [done|].
  set (pad_h := Z.to_nat _). set (pad_w := Z.to_nat _).
  intros (padded' & Hpad & [= <- _])%bind_Ok.
  assert (length img = h) as Hlen by (by injection Hshape).
  unfold pad_reflect2 in Hpad. apply bind_Ok in Hpad as (rows & Hrows & Hcols).
  pose proof (pad_reflect_after_app _ _ _ Hrows) as (extra & Erows & Hextra).
  pose proof (traverse_length _ _ _ Hcols) as Hlen'.
  unfold rectangular in Hrect. rewrite Forall_lookup in Hrect.
  split.
  - intros k j Hk Hh Hj.
    assert (k < pad_h)%nat as Hk' by (rewrite Hlen', Erows, length_app in Hk; lia).
    pose proof (pad_reflect_after_mirror _ _ _ k Hrows Hk') as Hmirror.
    rewrite Hlen in Hmirror. specialize (Hmirror Hh).
    destruct (lookup_lt_is_Some_2 img (h - 2 - k)%nat) as [row Hrow]; [lia|].
    rewrite Hrow in Hmirror.
    destruct (traverse_lookup _ _ _ _ _ Hcols Hmirror) as (row' & Hrow' & Hpadrow).
    apply pad_reflect_after_app in Hpadrow as (extra' & -> & _).
    unfold at2. rewrite Hrow', Hrow. cbn [mbind option_bind].
    apply lookup_app_l. by rewrite (Hrect _ _ Hrow).
  - intros i k row' Hi Hrow' Hk Hw.
    destruct (traverse_lookup_inv _ _ _ _ _ Hcols Hrow') as (row & Hrow & Hpadrow).
    assert (img !! i = Some row) as Himg.
    { rewrite Erows in Hrow. rewrite lookup_app_l in Hrow by lia. done. }
    pose proof (Hrect _ _ Himg) as Hroww.
    pose proof (pad_reflect_after_app _ _ _ Hpadrow) as (extra' & E & Hextra').
    assert (k < pad_w)%nat as Hk' by (rewrite E, length_app in Hk; lia).
    pose proof (pad_reflect_after_mirror _ _ _ k Hpadrow Hk') as Hmirror.
    rewrite Hroww in Hmirror.
    unfold at2. rewrite Hrow', Himg. cbn [mbind option_bind]. by apply Hmirror.
Qed.

Local Open Scope nat_scope.

(** X11. The dilated mask is 255 at a position exactly when some position
    of the mask at city-block distance at most 2 holds a value greater than
    127, and 0 otherwise; nothing wraps around the border. *)
Theorem mask_dilated_reach (mask : list (list Z)) w i j :
  rectangular w mask → i < length mask → j < w →
  ∃ v, at2 (mask_dilated (mask_binary mask)) i j = Some v ∧
       (v = 0 ∨ v = 255)%Z ∧
       (v = 255%Z ↔
        ∃ i' j' m, at2 mask i' j' = Some m ∧ (127 < m)%Z ∧ near 2 i j i' j').
Proof. by apply mask_dilated_spec. Qed.

(** X12. With no mask value above 127, [inpaint] returns the image, bit
    for bit, whatever the network answers. *)
Theorem inpaint_unmarked_returns_image self image mask w o m h w' :
  heap w !! self = Some o → model o = Some m → keeps_shape m →
  has_shape3 h w' 3 image → Forall3 uint8 image → has_shape2 h w' mask →
  (∀ i j v, at2 mask i j = Some v → (v ≤ 127)%Z) →
  0 < h → 0 < w' →
  inpaint self image mask w = (Ok image, w).
Proof.
  intros Hself Hm Hkeeps Himg Hu8 Hmask Hdark Hh Hw.
  rewrite (inpaint_loaded _ _ _ _ _ _ Hself Hm).
  by rewrite (inpaint_with_unmarked m image mask h w').
Qed.

(** X13. Where the dilated mask is 255, the composite is the 8-bit output
    of the network. *)
Theorem composite_takes_marked_pixels_from_network self image mask w out w' :
  inpaint self image mask w = (Ok out, w') →
  ∃ m model_output,
    heap w' !! self ≫= model = Some m ∧
    inpaint_result m image (mask_dilated (mask_binary mask))
      = Ok (model_output, shape2 image) ∧
    ∀ i j c r o,
      at3 model_output i j c = Some r →
      at3 image i j c = Some o → uint8 o →
      at2 (crop (shape2 image).1 (shape2 image).2
             (mask_dilated (mask_binary mask))) i j = Some 255%Z →
      c < 3 →
      at3 out i j c = Some r.
Proof.
  intros (m & Hm & (result & Hres & Hcomp)%inpaint_with_Ok)%inpaint_Ok.
  exists m, result. split_and!; [done..|].
  intros i j c r o Hr Ho Hu Hmd Hc.
  apply inpaint_result_Ok in Hres as [_ Hrange].
  pose proof (Forall3_at3 _ _ _ _ _ _ Hrange Hr) as Hur.
  rewrite (composite_pixel _ _ _ _ _ _ _ _ _ _ _ _ Hcomp Hr Ho Hmd Hc).
  by rewrite blend_255, to_uint8_of_Z.
Qed.

(** X14. Once the instance exists and its handle is set, no request
    changes the state of the process, whether it is answered or fails. *)
Theorem request_leaves_warm_state request w self o m :
  _inpainter w = Some self → heap w !! self = Some o → model o = Some m →
  (routes.inpaint request w).2 = w.
Proof.
  intros Hglob Hself Hm.
  unfold routes.inpaint, routes.inpaint_try, seq_bind, lift, ret.
  destruct (image_utils.decode_base64_image (routes.image request))
    as [image|e]; [|by destruct (isinstance_ValueError e)].
  destruct (image_utils.decode_base64_image (routes.mask request))
    as [mask|e]; [|by destruct (isinstance_ValueError e)].
  assert ((inpaint_image image mask w).2 = w) as Hstate.
  { unfold inpaint_image, seq_bind, lift, ret, get_inpainter. rewrite Hglob.
    destruct (image_utils.image_to_numpy image) as [image_np|e]; [|done].
    destruct (image_utils.mask_to_numpy mask) as [mask_np|e]; [|done].
    match goal with
    | |- context [if ?c then ?a else ?b] =>
        destruct (if c then a else b) as [mask_np'|e]
    end; [|done].
    rewrite (inpaint_loaded _ _ _ _ _ _ Hself Hm).
    by destruct (inpaint_with m image_np mask_np'). }
  destruct (inpaint_image image mask w) as [[result|e] w1]; cbn [snd] in Hstate;
    subst w1; [|by destruct (isinstance_ValueError e)].
  destruct (image_utils.encode_image_to_base64 result image_utils.default_format)
    as [url|e]; [done|by destruct (isinstance_ValueError e)].
Qed.

(** X15. A load that fails, in the download or in the deserialisation,
    raises the exception and leaves the handle unset, with the download
    counted; the next load fetches again and, when that succeeds, sets the
    handle. *)
Theorem failed_load_is_retried self w o e :
  heap w !! self = Some o → model o = None →
  hf_hub_download (downloads w) repo_id filename = Raise e ∨
  (∃ model_path,
     hf_hub_download (downloads w) repo_id filename = Ok model_path ∧
     torch_jit_load model_path = Raise e) →
  ∃ w', _load_model self w = (Raise e, w') ∧
        heap w' = heap w ∧ _instance w' = _instance w ∧
        _inpainter w' = _inpainter w ∧ downloads w' = S (downloads w) ∧
        ∀ model_path m,
          hf_hub_download (S (downloads w)) repo_id filename = Ok model_path →
          torch_jit_load model_path = Ok m →
          ∃ w'', _load_model self w' = (Ok (), w'') ∧
                 heap w'' !! self ≫= model = Some m ∧
                 downloads w'' = S (S (downloads w)).
Proof.
  intros Hself Hm Hfail.
  set (w1 := {| heap := heap w; _instance := _instance w;
                _inpainter := _inpainter w; downloads := S (downloads w) |}).
  exists w1. split.
  { unfold _load_model. rewrite Hself, Hm.
    destruct Hfail as [-> | (model_path & -> & ->)]; done. }
  split_and!; [done..|].
  intros model_path m Hpath Hload.
  unfold _load_model. cbn [heap downloads w1]. rewrite Hself, Hm, Hpath, Hload.
  eexists. split; [done|]. cbn.
  rewrite list_lookup_insert_eq by (by eapply lookup_lt_Some). done.
Qed.

(** X16. The image that [inpaint_image] returns has mode RGB and the size
    of the input image, whatever the size of the mask. *)
Theorem inpaint_image_keeps_image_size image mask image_np mask_np h w hm wm st :
  image_utils.image_to_numpy image = Ok image_np →
  image_utils.mask_to_numpy mask = Ok mask_np →
  has_shape3 h w 3 image_np → 0 < h → 0 < w →
  has_shape2 hm wm mask_np → 0 < hm → 0 < wm →
  reachable st → hub_available → (∀ m, keeps_shape m) →
  ∃ result st',
    inpaint_image image mask st = (Ok result, st') ∧
    mode result = "RGB" ∧ has_shape3 h w 3 (pixels result).
Proof.
  intros Himage Hmask Himg Hh Hw Hmsk Hhm Hwm Hst%reachable_single_instance
    Hhub Hkeeps.
  pose proof (has_shape2_shape2 _ _ _ (proj1 Himg) Hh) as Hsi.
  pose proof (has_shape2_shape2 _ _ _ Hmsk Hhm) as Hsm.
  destruct (resize_nearest_shape mask_np hm wm h w Hmsk Hhm Hwm Hh Hw)
    as (mask_pil & Hresize & Hshape).
  destruct (get_inpainter_single_instance st Hst)
    as (st1 & Hget & Hst1 & _ & Hlen & _).
  assert (∃ mask_resized,
            (if decide (shape2 mask_np ≠ shape2 image_np) then
               mask_pil ← resize_nearest (fromarray2 mask_np)
                            ((shape2 image_np).2, (shape2 image_np).1);
               Ok (np_array2 mask_pil)
             else Ok mask_np) = Ok mask_resized ∧
            has_shape2 h w mask_resized) as (mask_resized & Hmr & Hres).
  { rewrite Hsi, Hsm. cbn [fst snd]. case_decide as E.
    - rewrite Hresize. by eexists.
    - exists mask_np. split; [done|].
      assert ((hm, wm) = (h, w)) as [= <- <-]; [|done].
      by destruct (decide ((hm, wm) = (h, w))). }
  destruct (inpaint_is_Ok st1 image_np mask_resized h w)
    as (out & st2 & Hrun & Hout); try done.
  { by destruct (heap st1). }
  exists (image_utils.numpy_to_image out), st2. split_and!; [|done..].
  unfold inpaint_image, seq_bind, lift, ret.
  rewrite Hget, Himage. cbv beta iota. rewrite Hmask. cbv beta iota.
  rewrite Hmr. cbv beta iota. by rewrite Hrun.
Qed.

(** X17. [inpaint] on a mask whose padded size differs from the padded
    size of the image raises torch's size error, before the network is
    called. *)
Theorem inpaint_mask_size_mismatch_raises m image mask h w hm wm :
  has_shape3 h w 3 image → has_shape2 hm wm mask →
  0 < h → 0 < w → 0 < hm → 0 < wm →
  padded_size h ≠ padded_size hm ∨ padded_size w ≠ padded_size wm →
  inpaint_with m image mask = Raise size_mismatch.
Proof.
  intros [Himg Hpx] Hmask Hh Hw Hhm Hwm Hne.
  pose proof (mask_dilated_shape _ _ _ Hmask) as Hmd.
  pose proof (padded_size_ge_8 h Hh). pose proof (padded_size_ge_8 w Hw).
  pose proof (padded_size_ge_8 hm Hhm). pose proof (padded_size_ge_8 wm Hwm).
  unfold inpaint_with, inpaint_result.
  destruct (_pad_to_multiple_shape2 image h w Himg Hh) as (image_padded & Hpi & Hip).
  destruct (_pad_to_multiple_shape2 _ hm wm Hmd Hhm) as (mask_padded & Hpm & Hmp).
  pose proof (_pad_to_multiple_Forall _ _ _ _ _ Hpi Hpx) as Hpx'.
  rewrite Hpi. bind_step. rewrite Hpm. bind_step.
  destruct (permute_201_shape (map3 normalize image_padded)
              (padded_size h) (padded_size w) 3)
    as [Hlen Hplanes]; [by apply has_shape3_map3|lia..|].
  unfold model_input. cbv zeta.
  replace (mul4 _ _) with (@Raise tensor4 size_mismatch); [done|].
  symmetry.
  apply (mul4_mismatch _ _ (padded_size h) (padded_size w)
           (padded_size hm) (padded_size wm)); try done; try lia.
  by apply has_shape2_map2, has_shape2_map2.
Qed.

(** X18. [LaMaInpainter()] and [get_inpainter()] return the same object;
    constructing again fetches nothing and, once the object exists, changes
    nothing. *)
Theorem constructor_returns_the_instance w :
  reachable w →
  ∃ w1 w2, LaMaInpainter_call w = (Ok 0, w1) ∧ get_inpainter w = (Ok 0, w2) ∧
           heap w1 = heap w2 ∧ downloads w1 = downloads w ∧
           (heap w ≠ [] → w1 = w).
Proof.
  intros Hw%reachable_single_instance.
  destruct (LaMaInpainter_call_single_instance w Hw)
    as (w1 & Hcall & _ & Hd & o & Hheap & _ & _ & Hsame).
  destruct (get_inpainter_single_instance w Hw)
    as (w2 & Hget & _ & _ & _ & _ & Hsame2).
  exists w1, w2. split_and!; [done..| |done|done].
  unfold get_inpainter in Hget. destruct (_inpainter w) as [a|] eqn:Ha.
  - injection Hget as _ <-.
    destruct Hw as [(_ & _ & ?)|(o' & Hh & _)]; [congruence|].
    rewrite Hsame; [done|]. by rewrite Hh.
  - rewrite Hcall in Hget. by injection Hget as <-.
Qed.

End further_properties.

(** ** Examples *)

Section further_examples.
Import PyStr inpaint_service Scipy Fixtures.
Local Open Scope nat_scope.

(** X1 on a JPEG data URI with a second line. *)
Lemma decode_data_url_reads_payload_example :
  all_chars (not_char ";") "jpeg" = true ∧
  all_chars (not_char newline) "AAAA" = true ∧
  stops (not_char newline) (String newline "ignored") ∧
  image_utils.decode_base64_image
    ("data:image/" +:+ "jpeg" +:+ ";base64," +:+ "AAAA" +:+ String newline "ignored")
  = (image_bytes ← b64decode "AAAA"; Image_open image_bytes).
Proof.
  split_and!; [reflexivity..|].
  apply (decode_data_url_reads_payload "jpeg" "AAAA" (String newline "ignored"));
    [discriminate|reflexivity|discriminate|reflexivity|reflexivity].
Defined.

(** X2 on a data URI that is no image. *)
Lemma decode_rejects_malformed_data_url_example :
  startswith "data:text/plain;base64,AAAA" "data:" = true ∧
  strip_prefix "data:image/" "data:text/plain;base64,AAAA" = None ∧
  image_utils.decode_base64_image "data:text/plain;base64,AAAA"
  = Raise (ValueError "Invalid data URL format").
Proof.
  split_and!; [reflexivity..|].
  apply (decode_rejects_malformed_data_url "data:text/plain;base64,AAAA").
  left. split; reflexivity.
Defined.

(** X3 on the stored image and the format PNG. *)
Lemma decode_encode_any_format_example :
  Image_save stored_image "PNG" = Ok stored_file ∧
  all_chars (not_char ";") (lower "PNG") = true ∧
  all_chars (not_char newline) (b64encode stored_file) = true ∧
  ∃ data_url,
    image_utils.encode_image_to_base64 stored_image "PNG" = Ok data_url ∧
    data_url = "data:image/" +:+ lower "PNG" +:+ ";base64," +:+ b64encode stored_file ∧
    image_utils.decode_base64_image data_url
    = (image_bytes ← b64decode (b64encode stored_file); Image_open image_bytes).
Proof.
  split_and!; [reflexivity..|].
  apply (decode_encode_any_format stored_image "PNG" stored_file);
    [reflexivity|vm_compute; discriminate|reflexivity|vm_compute; discriminate
    |reflexivity].
Defined.

(** X4 on a payload with a wrong padding. *)
Lemma inpaint_decode_failure_leaves_state_example :
  image_utils.decode_base64_image "AAA" = Raise (binascii_Error "Incorrect padding") ∧
  routes.inpaint {| routes.image := "AAA"; routes.mask := "AAAA" |} initial_world
  = (routes.HTTPException 400 "Invalid image data: Incorrect padding", initial_world).
Proof.
  split; [reflexivity|].
  apply (inpaint_decode_failure_leaves_state
           {| routes.image := "AAA"; routes.mask := "AAAA" |} initial_world
           (binascii_Error "Incorrect padding")).
  left. reflexivity.
Defined.

(** X5 on the request that carries the stored file. *)
Lemma inpaint_success_is_png_data_url_example :
  routes.inpaint stored_request initial_world
  = (routes.InpaintResponse "data:image/png;base64,iVBORw0KGgo=",
     (routes.inpaint stored_request initial_world).2) ∧
  ∃ result buffer self m,
    mode result = "RGB" ∧
    Image_save result "PNG" = Ok buffer ∧
    "data:image/png;base64,iVBORw0KGgo="%string
    = "data:image/png;base64," +:+ b64encode buffer ∧
    heap (routes.inpaint stored_request initial_world).2 !! self ≫= model = Some m.
Proof.
  assert (routes.inpaint stored_request initial_world
          = (routes.InpaintResponse "data:image/png;base64,iVBORw0KGgo=",
             (routes.inpaint stored_request initial_world).2)) as Hrun
    by (vm_compute; reflexivity).
  split; [exact Hrun|].
  exact (inpaint_success_is_png_data_url stored_request initial_world _ _ Hrun).
Defined.

(** X6 on the small mask and the multiple 4. *)
Lemma pad_to_multiple_any_multiple_example :
  shape2 small_mask = (2, 3) ∧ rectangular 3 small_mask ∧
  ∃ padded H W,
    _pad_to_multiple small_mask 4 = Ok (padded, (2, 3)) ∧
    shape2 padded = (H, W) ∧ rectangular W padded ∧
    (Z.of_nat H mod 4 = 0)%Z ∧ (Z.of_nat W mod 4 = 0)%Z ∧
    (Z.of_nat 2 ≤ Z.of_nat H < Z.of_nat 2 + 4)%Z ∧
    (Z.of_nat 3 ≤ Z.of_nat W < Z.of_nat 3 + 4)%Z.
Proof.
  assert (rectangular 3 small_mask) as Hrect by (repeat constructor).
  split_and!; [reflexivity|done|].
  apply (pad_to_multiple_any_multiple small_mask 4 2 3); [lia|reflexivity|done].
Defined.

(** X7 on the padded small mask. *)
Lemma pad_to_multiple_aligned_unchanged_example :
  (Z.of_nat (shape2 small_mask_padded).1 mod 8 = 0)%Z ∧
  (Z.of_nat (shape2 small_mask_padded).2 mod 8 = 0)%Z ∧
  _pad_to_multiple small_mask_padded 8 = Ok (small_mask_padded, (8, 8)).
Proof.
  split_and!; [reflexivity..|].
  apply (pad_to_multiple_aligned_unchanged small_mask_padded 8);
    [discriminate|reflexivity|reflexivity].
Defined.

(** X8 on the small mask. *)
Lemma pad_to_multiple_idempotent_example :
  rectangular (shape2 small_mask).2 small_mask ∧
  _pad_to_multiple small_mask 8 = Ok (small_mask_padded, (2, 3)) ∧
  _pad_to_multiple small_mask_padded 8
  = Ok (small_mask_padded, shape2 small_mask_padded).
Proof.
  assert (rectangular (shape2 small_mask).2 small_mask) as Hrect
    by (repeat constructor).
  split_and!; [done|reflexivity|].
  apply (pad_to_multiple_idempotent small_mask small_mask_padded 8 (2, 3));
    [lia|done|reflexivity].
Defined.

(** X9 on the small mask: the 200 at (5, 4) of the padded mask is the 200
    of the mask. *)
Lemma pad_to_multiple_no_new_values_example :
  _pad_to_multiple small_mask 8 = Ok (small_mask_padded, (2, 3)) ∧
  at2 small_mask_padded 5 4 = Some 200%Z ∧
  ∃ i' j', at2 small_mask i' j' = Some 200%Z.
Proof.
  split_and!; [reflexivity..|].
  apply (pad_to_multiple_no_new_values small_mask small_mask_padded 8 (2, 3) 5 4);
    reflexivity.
Defined.

(** X10 on the small mask: row 2 of the padded mask is row 0. *)
Lemma pad_to_multiple_mirrors_example :
  shape2 small_mask = (2, 3) ∧ rectangular 3 small_mask ∧
  _pad_to_multiple small_mask 8 = Ok (small_mask_padded, (2, 3)) ∧
  at2 small_mask_padded (2 + 0) 1 = at2 small_mask (2 - 2 - 0) 1.
Proof.
  assert (rectangular 3 small_mask) as Hrect by (repeat constructor).
  split_and!; [reflexivity|done|reflexivity|].
  apply (proj1 (pad_to_multiple_mirrors small_mask small_mask_padded 8 2 3 (2, 3)
                  eq_refl Hrect eq_refl));
    [vm_compute; lia|lia|lia].
Defined.

(** X11 on the small mask, at position (0, 1), two steps from the marked
    pixel. *)
Lemma mask_dilated_reach_example :
  rectangular 3 small_mask ∧
  ∃ v, at2 (mask_dilated (mask_binary small_mask)) 0 1 = Some v ∧
       (v = 0 ∨ v = 255)%Z ∧
       (v = 255%Z ↔
        ∃ i' j' m, at2 small_mask i' j' = Some m ∧ (127 < m)%Z ∧ near 2 0 1 i' j').
Proof.
  assert (rectangular 3 small_mask) as Hrect by (repeat constructor).
  split; [done|].
  apply (mask_dilated_reach small_mask 3 0 1); [done|simpl; lia|lia].
Defined.

(** X12 on the small image and the dark mask, in the state after a run. *)
Lemma inpaint_unmarked_returns_image_example :
  heap small_run.2 !! 0 = Some {| _initialized := true; model := Some () |} ∧
  has_shape3 2 3 3 small_image ∧ has_shape2 2 3 dark_mask ∧
  inpaint 0 small_image dark_mask small_run.2 = (Ok small_image, small_run.2).
Proof.
  assert (has_shape3 2 3 3 small_image) as Himage
    by (split; [split|]; repeat constructor).
  assert (has_shape2 2 3 dark_mask) as Hmask by (split; repeat constructor).
  assert (Forall3 uint8 small_image) as Hu8
    by (unfold uint8; repeat constructor; lia).
  assert (∀ i j v, at2 dark_mask i j = Some v → (v ≤ 127)%Z) as Hdark.
  { intros i j v.
    destruct i as [|[|i]]; [| |done];
      (destruct j as [|[|[|j]]]; [| | |done]); intros [= <-]; lia. }
  split_and!; [reflexivity|done|done|].
  apply (inpaint_unmarked_returns_image (hub:=echo_hub) 0 small_image dark_mask
           small_run.2 (@mkLaMaInpainter echo_hub true (Some ())) () 2 3);
    [reflexivity|reflexivity|apply echo_keeps_shape|done|done|done|done|lia|lia].
Defined.

(** X13 on the small image. *)
Lemma composite_takes_marked_pixels_from_network_example :
  inpaint 0 small_image small_mask first_world = (Ok small_output, small_run.2) ∧
  ∃ m model_output,
    heap small_run.2 !! 0 ≫= model = Some m ∧
    inpaint_result m small_image (mask_dilated (mask_binary small_mask))
      = Ok (model_output, shape2 small_image) ∧
    ∀ i j c r o,
      at3 model_output i j c = Some r →
      at3 small_image i j c = Some o → uint8 o →
      at2 (crop (shape2 small_image).1 (shape2 small_image).2
             (mask_dilated (mask_binary small_mask))) i j = Some 255%Z →
      c < 3 →
      at3 small_output i j c = Some r.
Proof.
  assert (inpaint 0 small_image small_mask first_world
          = (Ok small_output, small_run.2)) as Hrun by (vm_compute; reflexivity).
  split; [done|].
  exact (composite_takes_marked_pixels_from_network 0 small_image small_mask
           first_world small_output small_run.2 Hrun).
Defined.

(** X14 on a request that fails, in the state after a run. *)
Lemma request_leaves_warm_state_example :
  _inpainter small_run.2 = Some 0 ∧
  heap small_run.2 !! 0 = Some {| _initialized := true; model := Some () |} ∧
  (routes.inpaint {| routes.image := "AAAA"; routes.mask := "AAAA" |} small_run.2).2
  = small_run.2.
Proof.
  split_and!; [reflexivity..|].
  apply (request_leaves_warm_state (hub:=echo_hub)
           {| routes.image := "AAAA"; routes.mask := "AAAA" |} small_run.2 0
           (@mkLaMaInpainter echo_hub true (Some ())) ());
    reflexivity.
Defined.

(** X15 on the hub whose first download fails. *)
Lemma failed_load_is_retried_example :
  let w := (get_inpainter (H:=flaky_hub) initial_world).2 in
  heap w !! 0 = Some {| _initialized := true; model := None |} ∧
  hf_hub_download (Hub:=flaky_hub) (downloads w) repo_id filename
  = Raise (OSError "connection reset") ∧
  ∃ w', _load_model 0 w = (Raise (OSError "connection reset"), w') ∧
        heap w' = heap w ∧ downloads w' = S (downloads w).
Proof.
  cbv zeta. split_and!; [reflexivity..|].
  destruct (failed_load_is_retried (hub:=flaky_hub) 0
              (get_inpainter (H:=flaky_hub) initial_world).2
              (@mkLaMaInpainter flaky_hub true None)
              (OSError "connection reset") eq_refl eq_refl (or_introl eq_refl))
    as (w' & Hload & Hheap & _ & _ & Hdown & _).
  by exists w'.
Defined.

(** X16 on the small image and the narrow mask. *)
Lemma inpaint_image_keeps_image_size_example :
  image_utils.image_to_numpy small_image_pil = Ok small_image ∧
  image_utils.mask_to_numpy narrow_mask_pil = Ok [[0; 255]]%Z ∧
  reachable initial_world ∧
  ∃ result st',
    inpaint_image small_image_pil narrow_mask_pil initial_world = (Ok result, st') ∧
    mode result = "RGB" ∧ has_shape3 2 3 3 (pixels result).
Proof.
  assert (has_shape3 2 3 3 small_image) as Himage
    by (split; [split|]; repeat constructor).
  assert (has_shape2 1 2 [[0; 255]]%Z) as Hmask by (split; repeat constructor).
  split_and!; [reflexivity|reflexivity|constructor|].
  apply (inpaint_image_keeps_image_size small_image_pil narrow_mask_pil
           small_image [[0; 255]]%Z 2 3 1 2 initial_world);
    [reflexivity|reflexivity|exact Himage|lia|lia|exact Hmask|lia|lia
    |constructor|exact echo_hub_available|exact echo_keeps_shape].
Defined.

(** X17 on the small image and the tall mask. *)
Lemma inpaint_mask_size_mismatch_raises_example :
  has_shape3 2 3 3 small_image ∧ has_shape2 9 3 tall_mask ∧
  padded_size 2 ≠ padded_size 9 ∧
  inpaint_with () small_image tall_mask = Raise size_mismatch.
Proof.
  assert (has_shape3 2 3 3 small_image) as Himage
    by (split; [split|]; repeat constructor).
  assert (has_shape2 9 3 tall_mask) as Hmask by (split; repeat constructor).
  assert (padded_size 2 ≠ padded_size 9) as Hne by (vm_compute; lia).
  split_and!; [done..|].
  apply (inpaint_mask_size_mismatch_raises (hub:=echo_hub) () small_image tall_mask
           2 3 9 3);
    [done|done|lia|lia|lia|lia|by left].
Defined.

(** X18 in the state at import time. *)
Lemma constructor_returns_the_instance_example :
  reachable initial_world ∧
  ∃ w1 w2, LaMaInpainter_call initial_world = (Ok 0, w1) ∧
           get_inpainter initial_world = (Ok 0, w2) ∧
           heap w1 = heap w2 ∧ downloads w1 = downloads initial_world ∧
           (heap initial_world ≠ [] → w1 = initial_world).
Proof.
  split; [constructor|].
  exact (constructor_returns_the_instance initial_world reachable_initial).
Defined.

End further_examples.
